(** * Heatwave-day pipeline of [reproduce_6_3_6.py]

    A shallow embedding of the loader, the region selector, the threshold
    estimator, the run detector, the annual aggregator and the smoother,
    with the properties the specification states about them.

    Numbers: a floating-point value is modelled as an exact rational
    ([Qc], canonical so that equality is Leibniz equality) or NaN ([None]).
    Comparisons with NaN are false, as in IEEE arithmetic.  Arithmetic is
    exact: rounding is outside the model. *)

From Stdlib Require Import QArith Qcanon Qround.
From stdpp Require Import base numbers list sorting strings gmap.

Local Open Scope nat_scope.

(** ** Data model *)

Abbreviation float := (option Qc).

Definition isnan (x : float) : bool :=
  match x with None => true | Some _ => false end.

(** [x > y] on floats. *)
Definition float_gt (x y : float) : bool :=
  match x, y with
  | Some a, Some b => bool_decide (b < a)%Qc
  | _, _ => false
  end.

(** The calendar attributes of a time stamp that the pipeline reads
    ([time.dt.year], [time.dt.month], [time.dt.dayofyear]). *)
Record datetime : Type := Datetime { year : Z; month : nat; dayofyear : nat }.

(** A grid cell: (latitude index, longitude index). *)
Definition Cell : Type := nat * nat.

(** A [(time, latitude, longitude)] array: one spatial slice per time step,
    in the order of the time axis. *)
Abbreviation DataArray X := (list (datetime * (Cell → X))).

(** A [(dayofyear, latitude, longitude)] array. *)
Abbreviation Thresholds := (list (nat * (Cell → float))).

Inductive exn : Type :=
  | KeyError (msg : string)
  | ValueError (msg : string)
  | IndexError.

(** The time series of one cell. *)
Definition column {X : Type} (a : DataArray X) (c : Cell) : list X :=
  (λ s, s.2 c) <$> a.

(** The value of a boolean field at time position [t] and cell [c]. *)
Definition flag (a : DataArray bool) (t : nat) (c : Cell) : bool :=
  match a !! t with Some s => s.2 c | None => false end.

(** Lift an operation along the time axis to the whole field: it is applied
    to every cell's series independently. *)
Definition along_time {X Y : Type} (f : list X → list Y) (dflt : Y)
    (a : DataArray X) : DataArray Y :=
  imap (λ t s, (s.1, λ c, default dflt (f (column a c) !! t))) a.

(** ** Operations along the time axis *)

(** The entries of [x] at positions [max 0 (t-w+1) .. t]. *)
Definition window_at {A : Type} (w t : nat) (x : list A) : list A :=
  drop (S t - w) (take (S t) x).

(** [x.shift(time=-k)]: position [t] receives the entry at [t+k], or the
    missing value when [t+k] is past the end. *)
Definition shift_back {A : Type} (k : nat) (x : list A) : list (option A) :=
  imap (λ t _, x !! (t + k)) x.

Definition fillna {A : Type} (d : A) (x : list (option A)) : list A :=
  default d <$> x.

(** [x.rolling(time=window, min_periods=min_periods).sum()]: the number of
    true entries in the window ending at each position, NaN where the
    window holds fewer than [min_periods] entries. *)
Definition rolling_sum (window min_periods : nat) (x : list bool)
    : list (option nat) :=
  imap (λ t _,
          let win := window_at window t x in
          if decide (min_periods ≤ length win)
          then Some (sum_list (Nat.b2n <$> win))
          else None) x.

(** [s == w] for a rolling sum [s]; NaN compares unequal. *)
Definition eq_scalar (w : nat) (s : option nat) : bool :=
  match s with Some n => bool_decide (n = w) | None => false end.

Definition end_of_runs (window : nat) (exceed : list bool) : list bool :=
  eq_scalar window <$> rolling_sum window window exceed.

(** The shift-OR loop over [range(window)]. *)
Definition heatwave_series (window : nat) (exceed : list bool) : list bool :=
  foldl (λ heatwave shift,
           zip_with orb heatwave
             (fillna false (shift_back shift (end_of_runs window exceed))))
        (replicate (length exceed) false)
        (seq 0 window).

(** ** Thresholds and exceedances *)

(** [thresholds.sel(dayofyear=d)]; a label that is absent aligns to NaN. *)
Definition sel_dayofyear (thresholds : Thresholds) (d : nat) : Cell → float :=
  match list_find (λ e, e.1 = d) thresholds with
  | Some (_, e) => e.2
  | None => λ _, None
  end.

(** [may_sep.groupby("time.dayofyear") > thresholds]. *)
Definition exceedance (may_sep : DataArray float) (thresholds : Thresholds)
    : DataArray bool :=
  (λ s, (s.1, λ c, float_gt (s.2 c)
                     (sel_dayofyear thresholds (dayofyear s.1) c)))
    <$> may_sep.

Definition identify_heatwave_days (may_sep : DataArray float)
    (thresholds : Thresholds) (min_run_length : nat)
    : exn + DataArray bool :=
  let exceed := exceedance may_sep thresholds in
  let window := min_run_length in
  if decide (window = 0) then inl (ValueError "window must be > 0")
  else inr (along_time (heatwave_series window) false exceed).

(** ** Loader *)

(** An opened dataset: its data variables by name. *)
Abbreviation Dataset := (gmap string (DataArray float)).

(** [a.isel(time=0)]: the first spatial slice; indexing an empty time axis
    raises. *)
Definition isel_time0 {X : Type} (a : DataArray X) : exn + (Cell → X) :=
  match a with
  | [] => inl IndexError
  | s :: _ => inr s.2
  end.

(** [a.where(mask)] for a 2-D mask broadcast along time. *)
Definition where_mask (a : DataArray float) (mask : Cell → bool)
    : DataArray float :=
  (λ s, (s.1, λ c, if mask c then s.2 c else None)) <$> a.

Definition load_temperature_data (ds : Dataset) : exn + DataArray float :=
  match ds !! "temperature" with
  | None => inl (KeyError "Dataset missing variable 'temperature'")
  | Some temperature =>
      match ds !! "land_mask" with
      | None => inl (KeyError "Dataset missing variable 'land_mask'")
      | Some lm =>
          let positive := (λ s, (s.1, λ c, float_gt (s.2 c) (Some 0%Qc))) <$> lm in
          match isel_time0 positive with
          | inl e => inl e
          | inr land_mask => inr (where_mask temperature land_mask)
          end
      end
  end.

(** ** Region masks *)

(** The spatial grid: its shape and its longitude coordinate, by longitude
    index. *)
Record Grid : Type := MkGrid { nlat : nat; nlon : nat; longitude : nat → Qc }.

Definition cells (g : Grid) : list Cell :=
  i ← seq 0 (nlat g); (λ j, (i, j)) <$> seq 0 (nlon g).

Definition build_region_masks (g : Grid) (temp_data : DataArray float)
    (region : string) : exn + list (string * (Cell → bool)) :=
  match isel_time0 temp_data with
  | inl e => inl e
  | inr first =>
      let valid_land : Cell → bool := λ c, negb (isnan (first c)) in
      if decide (region = "us") then
        let lon := longitude g in
        let west_mask := λ j, bool_decide (lon j < Qc_of_Z (-105))%Qc in
        let central_east_mask := λ j, bool_decide (Qc_of_Z (-105) ≤ lon j)%Qc in
        let us48_mask := λ j : nat, true in
        (* broadcast along latitude, then restrict to valid land *)
        let west_mask2d : Cell → bool := λ c, west_mask c.2 && valid_land c in
        let central_east_mask2d : Cell → bool :=
          λ c, central_east_mask c.2 && valid_land c in
        let us48_mask2d : Cell → bool := λ c, us48_mask c.2 && valid_land c in
        inr [("West", west_mask2d); ("Central-East", central_east_mask2d);
             ("US48", us48_mask2d)]
      else if decide (region = "nh") then inr [("NH", valid_land)]
      else inl (ValueError "Unknown region. Use 'us' or 'nh'.")
  end.

(** ** Seasonal selection *)

Definition select_may_to_september {X : Type} (temp_data : DataArray X)
    : DataArray X :=
  filter (λ s, 5 ≤ month s.1 ≤ 9) temp_data.

(** ** Threshold estimator *)

(** The group labels of a [groupby]: the distinct keys in ascending order. *)
Definition groupby_labels (keys : list nat) : list nat :=
  merge_sort (≤) (remove_dups keys).

Definition dropna (xs : list float) : list Qc := omap id xs.

(** Linear interpolation between the order statistics of a sorted sample at
    the virtual index [q * (n - 1)]. *)
Definition interpolate_linear (q : Qc) (sorted : list Qc) : float :=
  let n := length sorted in
  let h := (q * Qc_of_Z (Z.of_nat n - 1))%Qc in
  let lo := Z.to_nat (Qfloor h) in
  let hi := min (lo + 1) (n - 1) in
  let gamma := (h - Qc_of_Z (Z.of_nat lo))%Qc in
  match sorted !! lo, sorted !! hi with
  | Some a, Some b => Some (a + gamma * (b - a))%Qc
  | _, _ => None
  end.

(** [quantile(q, skipna=True)] along one axis. *)
Definition nanquantile (q : Qc) (xs : list float) : float :=
  interpolate_linear q (merge_sort Qcle (dropna xs)).

(** The days of the record that fall on day-of-year [d]. *)
Definition on_dayofyear {X : Type} (d : nat) (a : DataArray X) : DataArray X :=
  filter (λ s, dayofyear s.1 = d) a.

Definition compute_daily_90th_thresholds (may_sep : DataArray float)
    : Thresholds :=
  (λ d, (d, λ c, nanquantile (Q2Qc (9 # 10)) (column (on_dayofyear d may_sep) c)))
    <$> groupby_labels ((λ s, dayofyear s.1) <$> may_sep).

(** ** Annual aggregation *)

Definition in_year {X : Type} (y : Z) (a : DataArray X) : DataArray X :=
  filter (λ s, year s.1 = y) a.

(** [heatwave_days.groupby("time.year").sum(dim="time")]. *)
Definition groupby_year_sum (heatwave_days : DataArray bool)
    : list (Z * (Cell → nat)) :=
  (λ y, (y, λ c, sum_list (Nat.b2n <$> column (in_year y heatwave_days) c)))
    <$> merge_sort Z.le (remove_dups ((λ s, year s.1) <$> heatwave_days)).

Definition Qc_of_nat (n : nat) : Qc := Qc_of_Z (Z.of_nat n).

Definition Qc_sum (xs : list Qc) : Qc := foldr Qcplus 0%Qc xs.

(** [mean(skipna=True)]: the mean of the values that are present, NaN when
    none is. *)
Definition nanmean (xs : list float) : float :=
  let valid := dropna xs in
  if decide (length valid = 0) then None
  else Some (Qc_sum valid / Qc_of_nat (length valid))%Qc.

(** [counts.where(mask2d)] on one year's slice. *)
Definition where2d (counts : Cell → nat) (mask2d : Cell → bool) : Cell → float :=
  λ c, if mask2d c then Some (Qc_of_nat (counts c)) else None.

Definition aggregate_annual_per_region (g : Grid)
    (heatwave_days : DataArray bool)
    (region_masks : list (string * (Cell → bool)))
    : list Z * list (string * list float) :=
  let annual_counts_cell := groupby_year_sum heatwave_days in
  let years := annual_counts_cell.*1 in
  let regional :=
    (λ rm : string * (Cell → bool),
       let masked := (λ yc : Z * (Cell → nat), where2d yc.2 rm.2)
                       <$> annual_counts_cell in
       let per_station := (λ m, nanmean (m <$> cells g)) <$> masked in
       (rm.1, per_station))
      <$> region_masks in
  (years, regional).

(** ** Trailing average *)

(** [Series.rolling(window, min_periods).mean()]. *)
Definition rolling_mean (window min_periods : nat) (values : list float)
    : exn + list float :=
  if decide (window < min_periods)
  then inl (ValueError "min_periods must be <= window")
  else inr (imap (λ i _,
                    let valid := dropna (window_at window i values) in
                    let nobs := length valid in
                    if decide (min_periods ≤ nobs ∧ 0 < nobs)
                    then Some (Qc_sum valid / Qc_of_nat nobs)%Qc
                    else None) values).

Definition trailing_average (values : list float) (window : nat)
    : exn + list float :=
  rolling_mean window 1 values.

(** ** Quick subset *)

(** [a.isel(latitude=slice(None, None, step), longitude=slice(None, None,
    step))] on one slice: cell [(i, j)] of the result is cell
    [(i * step, j * step)] of the input. *)
Definition isel_step {X : Type} (step : nat) (s : Cell → X) : Cell → X :=
  λ c, s (c.1 * step, c.2 * step).

(** The grid of a field subsampled with [isel_step]. *)
Definition subsample_grid (g : Grid) (step : nat) : Grid :=
  MkGrid ((nlat g + step - 1) / step) ((nlon g + step - 1) / step)
         (λ j, longitude g (j * step)).

(** A step of zero is refused by the slice; a negative step (which reverses
    the axes) is outside the model.  The land count printed at the end
    selects the first time step of the subset. *)
Definition quick_subset (temp_data : DataArray float)
    (start_year end_year : Z) (spatial_step : nat) : exn + DataArray float :=
  let sub :=
    filter (λ s, (start_year ≤ year s.1)%Z ∧ (year s.1 ≤ end_year)%Z)
           temp_data in
  if decide (spatial_step = 0) then inl (ValueError "slice step cannot be zero")
  else
    let sub := (λ s, (s.1, isel_step spatial_step s.2)) <$> sub in
    match isel_time0 sub with
    | inl e => inl e
    | inr _ => inr sub
    end.

(** ** Plotting: the data handed to the axes *)

(** [v[mask]] for a boolean mask: the entries at the true positions; the
    lengths must agree. *)
Definition boolean_index {A : Type} (mask : list bool) (v : list A)
    : exn + list A :=
  if decide (length mask = length v)
  then inr ((filter (λ p, p.1 = true) (zip mask v)).*2)
  else inl IndexError.

(** Apply a fallible function to every value of a dict, in order, stopping
    at the first exception. *)
Fixpoint map_values {A B : Type} (f : A → exn + B) (d : list (string * A))
    : exn + list (string * B) :=
  match d with
  | [] => inr []
  | (k, v) :: d' =>
      match f v with
      | inl e => inl e
      | inr w =>
          match map_values f d' with
          | inl e => inl e
          | inr r => inr ((k, w) :: r)
          end
      end
  end.

(** The data part of [plot_figure]: the 15-year trailing averages, clipped
    to the years from 1914 on, and the clipped years; the axis limits take
    the minimum of the clipped years, which raises when none is left.
    Rendering and saving the figure are outside the model. *)
Definition plot_figure (years : list Z)
    (regional_series : list (string * list float))
    : exn + (list Z * list (string * list float)) :=
  match map_values (λ v, trailing_average v 15) regional_series with
  | inl e => inl e
  | inr smooth =>
      let mask := (λ y, bool_decide (1914 ≤ y)%Z) <$> years in
      match boolean_index mask years with
      | inl e => inl e
      | inr years_plot =>
          match map_values (boolean_index mask) smooth with
          | inl e => inl e
          | inr smooth =>
              match years_plot with
              | [] => inl (ValueError "zero-size array to reduction operation")
              | _ :: _ => inr (years_plot, smooth)
              end
          end
      end
  end.

(** ** Days at or above a fixed threshold ([reproduce_6_3_5.py]) *)

Definition fahrenheit_to_celsius (temp_f : Qc) : Qc :=
  ((temp_f - Qc_of_Z 32) * (Qc_of_Z 5 / Qc_of_Z 9))%Qc.

(** [x >= y] on floats. *)
Definition float_ge (x y : float) : bool :=
  match x, y with
  | Some a, Some b => bool_decide (b ≤ a)%Qc
  | _, _ => false
  end.

(** The first year of the bin of [bin_years] years that holds year [y],
    with the bins aligned so that one of them ends at [anchor_end_year].
    [/] is floor division, as [//] is. *)
Definition bin_start (bin_years anchor_end_year y : Z) : Z :=
  let anchor_start_year := (anchor_end_year - (bin_years - 1))%Z in
  ((y - anchor_start_year) / bin_years * bin_years + anchor_start_year)%Z.

(** The days of the record that fall in the bin starting at [b]. *)
Definition in_bin {X : Type} (bin_years anchor_end_year b : Z)
    (a : DataArray X) : DataArray X :=
  filter (λ s, bin_start bin_years anchor_end_year (year s.1) = b) a.

Definition compute_us48_series (g : Grid) (ds : Dataset) (threshold_c : Qc)
    (bin_years anchor_end_year : Z) : exn + list (Z * float) :=
  match ds !! "temperature" with
  | None => inl (KeyError "temperature")
  | Some temperature =>
      let is_hot : DataArray bool :=
        (λ s, (s.1, λ c, float_ge (s.2 c) (Some threshold_c))) <$> temperature in
      let labels :=
        merge_sort Z.le
          (remove_dups ((λ s, bin_start bin_years anchor_end_year (year s.1))
                          <$> is_hot)) in
      inr ((λ b,
              let counts_cell : Cell → nat :=
                λ c, sum_list (Nat.b2n <$>
                       column (in_bin bin_years anchor_end_year b is_hot) c) in
              (b, nanmean ((λ c, Some (Qc_of_nat (counts_cell c))) <$> cells g)))
             <$> labels)
  end.

(** ** Climatology index ([preprocess_data.py]) *)

(** The index into the 365-day climatology that
    [convert_to_absolute_temperatures] computes from a date's day of year
    (1..366). *)
Definition climatology_day_number (dayofyear : Z) : Z :=
  let day_of_year := (dayofyear - 1)%Z in
  if decide (59 < day_of_year)%Z then Z.min (day_of_year - 1) 364
  else day_of_year.

(** * Specification-side notions *)

(** Membership in a qualifying run: [t] lies in an interval [a, b) of the
    record, at least [w] long, on which every day is an exceedance. *)
Definition in_run (w : nat) (x : list bool) (t : nat) : Prop :=
  ∃ a b, a ≤ t < b ∧ a + w ≤ b ∧ b ≤ length x ∧
         ∀ j, a ≤ j < b → x !! j = Some true.


(** A cell is land when the land mask's first time step is positive there. *)
Definition is_land (land_mask0 : Cell → float) (c : Cell) : Prop :=
  ∃ v, land_mask0 c = Some v ∧ (0 < v)%Qc.

(** The longitude test that defines a named region. *)
Definition region_longitude_test (g : Grid) (name : string) (c : Cell) : Prop :=
  if decide (name = "West") then (longitude g c.2 < Qc_of_Z (-105))%Qc
  else if decide (name = "Central-East") then (Qc_of_Z (-105) ≤ longitude g c.2)%Qc
  else True.

(** Two families of named masks that agree at every cell. *)
Definition same_masks (m1 m2 : list (string * (Cell → bool))) : Prop :=
  Forall2 (λ p q, p.1 = q.1 ∧ ∀ c, p.2 c = q.2 c) m1 m2.

(** The valid observations of cell [c] on day-of-year [d], pooled over all
    the years of the record; missing observations are left out. *)
Definition pooled_observations (may_sep : DataArray float) (d : nat) (c : Cell)
    : list Qc :=
  omap (λ s, if decide (dayofyear s.1 = d) then s.2 c else None) may_sep.

(** The linear-interpolation quantile estimator, as the specification words
    it: with the observations in ascending order, the quantile at level [q]
    is found at rank position [q * (n - 1)], interpolating linearly between
    the two order statistics that enclose that position. *)
Definition is_linear_quantile (q : Qc) (obs : list Qc) (r : Qc) : Prop :=
  ∃ (sorted : list Qc) (lo : nat) (frac a b : Qc),
    Sorted Qcle sorted ∧ sorted ≡ₚ obs ∧
    (Qc_of_nat lo + frac = q * Qc_of_nat (length obs - 1))%Qc ∧
    (0 ≤ frac)%Qc ∧ (frac < 1)%Qc ∧
    sorted !! lo = Some a ∧
    sorted !! (min (lo + 1) (length obs - 1)) = Some b ∧
    r = (a + frac * (b - a))%Qc.

(** The number of days of year [y] flagged at cell [c]. *)
Definition annual_count (heatwave_days : DataArray bool) (y : Z) (c : Cell)
    : nat :=
  length (filter (λ s, year s.1 = y ∧ s.2 c = true) heatwave_days).

(** The cells of the grid that a mask selects. *)
Definition selected_cells (g : Grid) (mask2d : Cell → bool) : list Cell :=
  filter (λ c, mask2d c = true) (cells g).

(** ** Example inputs *)

Definition qz (z : Z) : float := Some (Qc_of_Z z).

(** Nine consecutive days of one season; days 1..7 are warm. *)
Definition may_sep_ex : DataArray float :=
  (λ i, (Datetime 2000 5 (122 + i),
         λ _ : Cell, if decide (1 ≤ i ≤ 7) then qz 31 else qz 29)) <$> seq 0 9.

Definition thresholds_ex : Thresholds :=
  (λ i, (122 + i, λ _ : Cell, qz 30)) <$> seq 0 9.

(** One day whose temperature equals its threshold. *)
Definition may_sep_tie : DataArray float := [(Datetime 2000 5 122, λ _, qz 30)].

Definition thresholds_tie : Thresholds := [(122, λ _, qz 30)].

(** Three years of one calendar day at one cell: 20, missing, 30. *)
Definition may_sep_q : DataArray float :=
  [(Datetime 2000 5 122, λ _, qz 20); (Datetime 2001 5 122, λ _, None);
   (Datetime 2002 5 122, λ _, qz 30)].

(** A dataset with two time steps on a 1 x 2 grid: cell (0,0) is land,
    cell (0,1) is ocean. *)
Definition ds_ex : Dataset :=
  {[ "temperature" := [(Datetime 2000 5 122, λ _, qz 30);
                       (Datetime 2000 5 123, λ _, qz 31)];
     "land_mask" := [(Datetime 2000 5 122,
                      λ c : Cell, if decide (c.2 = 0) then qz 1 else qz 0);
                     (Datetime 2000 5 123, λ _, qz 1)] ]}.

(** Both variables present, on an empty time axis. *)
Definition ds_no_time : Dataset :=
  {[ "temperature" := []; "land_mask" := [] ]}.

Definition grid_ex : Grid :=
  MkGrid 1 2 (λ j, if decide (j = 0) then Qc_of_Z (-110) else Qc_of_Z (-90)).

(** Two flagged days in 2000 and one unflagged day in 2001, with an empty
    West mask and a full US48 mask. *)
Definition heatwave_ex : DataArray bool :=
  [(Datetime 2000 5 122, λ _, true); (Datetime 2000 5 123, λ _, true);
   (Datetime 2001 5 121, λ _, false)].

Definition region_masks_ex : list (string * (Cell → bool)) :=
  [("West", λ _, false); ("US48", λ _, true)].

(** ** Further specification-side notions *)

(** A regional mean weighted by the number of cells it was taken over; a
    missing mean weighs nothing. *)
Definition weighted_mean (x : float) (n : nat) : Qc :=
  match x with
  | Some v => (v * Qc_of_nat n)%Qc
  | None => 0%Qc
  end.

(** [n] consecutive years from [y0] on. *)
Definition consecutive_years (y0 : Z) (n : nat) : list Z :=
  (λ i, (y0 + Z.of_nat i)%Z) <$> seq 0 n.

(** The number of days of the bin starting at [b] on which cell [c] is at
    or above the threshold. *)
Definition hot_days (temperature : DataArray float) (threshold_c : Qc)
    (bin_years anchor_end_year b : Z) (c : Cell) : nat :=
  length (filter (λ s, bin_start bin_years anchor_end_year (year s.1) = b ∧
                       float_ge (s.2 c) (Some threshold_c) = true)
                 temperature).

(** * Properties of the run detector *)

Section time_axis_facts.
Context {A : Type}.
Implicit Types x : list A.

Lemma window_at_lookup w t x j :
  window_at w t x !! j =
    if decide (S t - w + j < S t) then x !! (S t - w + j) else None.
Proof.
  unfold window_at. rewrite lookup_drop.
  case_decide.
  - by rewrite lookup_take_lt by lia.
  - by rewrite lookup_take_ge by lia.
Qed.

Lemma window_at_length w t x :
  t < length x → length (window_at w t x) = min w (S t).
Proof.
  intros Ht. unfold window_at. rewrite length_drop, length_take. lia.
Qed.

Lemma shift_back_lookup k x t :
  t < length x → shift_back k x !! t = Some (x !! (t + k)).
Proof.
  intros Ht. unfold shift_back. rewrite list_lookup_imap.
  destruct (lookup_lt_is_Some_2 x t Ht) as [a ->]. done.
Qed.

Lemma shift_back_length k x : length (shift_back k x) = length x.
Proof. unfold shift_back. by rewrite length_imap. Qed.
End time_axis_facts.

Lemma sum_b2n_le (l : list bool) : sum_list (Nat.b2n <$> l) ≤ length l.
Proof. induction l as [|[] l IH]; csimpl; lia. Qed.

Lemma sum_b2n_full (l : list bool) :
  sum_list (Nat.b2n <$> l) = length l ↔ ∀ j b, l !! j = Some b → b = true.
Proof.
  induction l as [|b l IH]; csimpl.
  - split; [intros _ j b Hj; by rewrite lookup_nil in Hj | done].
  - pose proof (sum_b2n_le l) as Hle. split.
    + intros Hs [|j] b' Hj; simpl in Hj.
      * destruct b; simpl in Hs; [congruence | lia].
      * destruct b; simpl in Hs; [|lia].
        apply (proj1 IH) with j; [lia | done].
    + intros Hall. rewrite (Hall 0 b eq_refl). simpl. f_equal.
      apply IH. intros j b' Hj. by apply (Hall (S j)).
  Qed.

Lemma rolling_sum_length w m x : length (rolling_sum w m x) = length x.
Proof. unfold rolling_sum. by rewrite length_imap. Qed.

Lemma end_of_runs_length w x : length (end_of_runs w x) = length x.
Proof. unfold end_of_runs. by rewrite length_fmap, rolling_sum_length. Qed.

(** A position is a run end exactly when the [w] positions ending there
    exist and are all exceedances. *)
Lemma end_of_runs_true w (x : list bool) t :
  1 ≤ w →
  end_of_runs w x !! t = Some true ↔
    t < length x ∧ w ≤ S t ∧ ∀ j, S t - w ≤ j ≤ t → x !! j = Some true.
Proof.
  intros Hw. unfold end_of_runs, rolling_sum.
  rewrite list_lookup_fmap, list_lookup_imap.
  destruct (x !! t) as [b|] eqn:Hxt; simpl.
  2:{ apply lookup_ge_None in Hxt. split; [done | lia]. }
  assert (Ht : t < length x) by (by apply lookup_lt_Some in Hxt).
  pose proof (window_at_length w t x Ht) as Hlen.
  case_decide as Hmin; simpl.
  - rewrite Hlen in Hmin.
    assert (Hlen' : length (window_at w t x) = w) by lia.
    split.
    + intros [= Heq%bool_decide_eq_true_1].
      rewrite <-Hlen' in Heq at 2. rewrite sum_b2n_full in Heq.
      split; [done|]. split; [lia|]. intros j Hj.
      destruct (lookup_lt_is_Some_2 x j ltac:(lia)) as [b' Hb'].
      rewrite Hb'. f_equal. apply (Heq (j - (S t - w))).
      rewrite window_at_lookup. case_decide; [|lia].
      by replace (S t - w + (j - (S t - w))) with j by lia.
    + intros (_ & _ & Hall). f_equal. apply bool_decide_eq_true_2.
      rewrite <-Hlen' at 2. apply sum_b2n_full. intros j b' Hj.
      rewrite window_at_lookup in Hj. case_decide; [|done].
      rewrite Hall in Hj by lia. congruence.
  - rewrite Hlen in Hmin. split; [done | lia].
Qed.

Lemma heatwave_series_loop (e : list bool) n m :
  length e = n →
  length (foldl (λ heatwave shift,
                   zip_with orb heatwave (fillna false (shift_back shift e)))
                (replicate n false) (seq 0 m)) = n ∧
  ∀ t, foldl (λ heatwave shift,
                zip_with orb heatwave (fillna false (shift_back shift e)))
             (replicate n false) (seq 0 m) !! t = Some true ↔
       t < n ∧ ∃ k, k < m ∧ e !! (t + k) = Some true.
Proof.
  intros Hn. induction m as [|m [IHl IH]].
  - simpl. split; [by rewrite length_replicate|]. intros t. split.
    + intros [? _]%lookup_replicate. done.
    + intros (_ & k & ? & _). lia.
  - rewrite seq_S, foldl_app. simpl.
    set (prev := foldl _ _ (seq 0 m)) in *.
    assert (Hsh : length (fillna false (shift_back m e)) = n).
    { unfold fillna. by rewrite length_fmap, shift_back_length. }
    split.
    { rewrite length_zip_with. lia. }
    intros t. rewrite lookup_zip_with.
    destruct (prev !! t) as [p|] eqn:Hp; simpl.
    2:{ apply lookup_ge_None in Hp. split; [done | lia]. }
    assert (Ht : t < n) by (apply lookup_lt_Some in Hp; lia).
    unfold fillna. rewrite list_lookup_fmap, shift_back_lookup by lia. simpl.
    split.
    + intros [= Hor]. split; [done|].
      apply orb_true_iff in Hor as [-> | Hs].
      * apply IH in Hp as (_ & k & ? & ?). exists k. split; [lia | done].
      * exists m. split; [lia|].
        destruct (e !! (t + m)) as [[]|]; simpl in Hs; done.
    + intros (_ & k & Hk & Hek). f_equal. apply orb_true_iff.
      destruct (decide (k = m)) as [-> | Hne].
      * right. by rewrite Hek.
      * left. destruct p; [done|].
        assert (prev !! t = Some true) as Hc; [|congruence].
        apply IH. split; [done|]. exists k. split; [lia | done].
Qed.

Lemma heatwave_series_length w x : length (heatwave_series w x) = length x.
Proof.
  unfold heatwave_series.
  by destruct (heatwave_series_loop (end_of_runs w x) (length x) w
                 (end_of_runs_length w x)) as [-> _].
Qed.

Lemma heatwave_series_true w (x : list bool) t :
  1 ≤ w → heatwave_series w x !! t = Some true ↔ in_run w x t.
Proof.
  intros Hw. unfold heatwave_series.
  destruct (heatwave_series_loop (end_of_runs w x) (length x) w
              (end_of_runs_length w x)) as [_ ->].
  split.
  - intros (Ht & k & Hk & He).
    apply end_of_runs_true in He as (Hl & Hge & Hall); [|done].
    exists (S (t + k) - w), (S (t + k)).
    split; [lia|]. split; [lia|]. split; [lia|].
    intros j Hj. apply Hall. lia.
  - intros (a & b & Hab & Hlen & Hb & Hall). split; [lia|].
    destruct (decide (t + w ≤ b)) as [Hfit | Hfit].
    + exists (w - 1). split; [lia|]. apply end_of_runs_true; [done|].
      split; [lia|]. split; [lia|]. intros j Hj. apply Hall. lia.
    + exists (b - 1 - t). split; [lia|]. apply end_of_runs_true; [done|].
      split; [lia|]. split; [lia|]. intros j Hj. apply Hall. lia.
Qed.



(** Two boolean series of one length agree when they are true at the same
    positions. *)
Lemma bool_series_eq (l1 l2 : list bool) :
  length l1 = length l2 →
  (∀ t, l1 !! t = Some true ↔ l2 !! t = Some true) →
  l1 = l2.
Proof.
  intros Hlen Htrue. apply list_eq. intros t.
  destruct (l1 !! t) as [b1|] eqn:H1, (l2 !! t) as [b2|] eqn:H2.
  - destruct b1, b2; try done.
    + apply Htrue in H1. congruence.
    + apply Htrue in H2. congruence.
  - apply lookup_lt_Some in H1. apply lookup_ge_None in H2. lia.
  - apply lookup_ge_None in H1. apply lookup_lt_Some in H2. lia.
  - done.
Qed.



(** ** The field and its columns *)

Lemma column_length {X : Type} (a : DataArray X) c :
  length (column a c) = length a.
Proof. unfold column. by rewrite length_fmap. Qed.

Lemma column_lookup_true (a : DataArray bool) t c :
  column a c !! t = Some true ↔ flag a t c = true.
Proof.
  unfold column, flag. rewrite list_lookup_fmap.
  destruct (a !! t) as [s|]; simpl; [|done].
  split; congruence.
Qed.

Lemma along_time_length {X Y : Type} (f : list X → list Y) d (a : DataArray X) :
  length (along_time f d a) = length a.
Proof. unfold along_time. by rewrite length_imap. Qed.

Lemma along_time_column {X Y : Type} (f : list X → list Y) d
    (a : DataArray X) c :
  (∀ x, length (f x) = length x) →
  column (along_time f d a) c = f (column a c).
Proof.
  intros Hf. apply list_eq. intros t.
  unfold column at 1, along_time. rewrite list_lookup_fmap, list_lookup_imap.
  destruct (a !! t) as [s|] eqn:Hs; simpl.
  - destruct (lookup_lt_is_Some_2 (f (column a c)) t) as [y Hy].
    { rewrite Hf, column_length. by apply lookup_lt_Some in Hs. }
    by rewrite Hy.
  - symmetry. apply lookup_ge_None. rewrite Hf, column_length.
    by apply lookup_ge_None in Hs.
Qed.

Lemma identify_heatwave_days_column may_sep thresholds N c :
  1 ≤ N →
  ∃ heatwave,
    identify_heatwave_days may_sep thresholds N = inr heatwave ∧
    length heatwave = length may_sep ∧
    column heatwave c
      = heatwave_series N (column (exceedance may_sep thresholds) c).
Proof.
  intros HN. unfold identify_heatwave_days.
  case_decide; [lia|]. eexists. split; [done|]. split.
  - unfold exceedance. by rewrite along_time_length, length_fmap.
  - apply along_time_column. intros x. apply heatwave_series_length.
Qed.

(** Every boolean series is the exceedance series of some seasonal record,
    so the statements below range over all exceedance sequences. *)
Lemma exceedance_column_realisable (x : list bool) :
  ∃ (may_sep : DataArray float) (thresholds : Thresholds),
    ∀ c, column (exceedance may_sep thresholds) c = x.
Proof.
  exists ((λ b : bool, (Datetime 2000 5 122,
                        λ _ : Cell, if b then qz 1 else qz 0)) <$> x),
         [(122, λ _, qz 0)].
  intros c. unfold column, exceedance. rewrite <-!list_fmap_compose.
  rewrite <-(list_fmap_id x) at 2. apply list_fmap_ext.
  intros _ [] _; reflexivity.
Qed.

(** ** Run detector: main results *)


(** C3. Whatever the seasonal field, the thresholds and the run length, a
    day flagged as a heatwave day at a cell is an exceedance day at that
    cell. *)
Theorem heatwave_implies_exceedance may_sep thresholds N heatwave t c :
  identify_heatwave_days may_sep thresholds N = inr heatwave →
  flag heatwave t c = true →
  flag (exceedance may_sep thresholds) t c = true.
Proof.
  intros Hid Hflag.
  assert (HN : 1 ≤ N).
  { unfold identify_heatwave_days in Hid. case_decide; [done | lia]. }
  destruct (identify_heatwave_days_column may_sep thresholds N c HN)
    as (heatwave' & Heq & _ & Hcol).
  rewrite Hid in Heq. injection Heq as <-.
  apply column_lookup_true in Hflag. rewrite Hcol in Hflag.
  apply heatwave_series_true in Hflag as (a & b & Ht & _ & _ & Hall); [|done].
  apply column_lookup_true. apply Hall. lia.
Qed.

(** C6. For every run length [N >= 1], a position with fewer than [N] days
    of record up to and including it ([t < N - 1]) is never a run end,
    whatever the exceedance values. *)
Theorem end_of_runs_incomplete_window (exceed : list bool) N t :
  1 ≤ N → t < N - 1 → t < length exceed →
  end_of_runs N exceed !! t = Some false.
Proof.
  intros HN Ht Hlen.
  destruct (lookup_lt_is_Some_2 (end_of_runs N exceed) t) as [b Hb].
  { by rewrite end_of_runs_length. }
  destruct b; [|done].
  apply end_of_runs_true in Hb as (_ & ? & _); [lia | done].
Qed.


Lemma heatwave_implies_exceedance_witness :
  flag (exceedance may_sep_ex thresholds_ex) 3 (0, 0) = true.
Proof.
  apply (heatwave_implies_exceedance may_sep_ex thresholds_ex 6
           (along_time (heatwave_series 6) false
              (exceedance may_sep_ex thresholds_ex)) 3 (0, 0)).
  - reflexivity.
  - vm_compute; reflexivity.
Defined.

Lemma end_of_runs_incomplete_window_witness :
  end_of_runs 6 (replicate 9 true) !! 4 = Some false.
Proof.
  apply end_of_runs_incomplete_window; simpl; lia.
Defined.

(** ** Exceedance flag *)

(** C2, as stated, fails: a day whose temperature equals its threshold is
    not an exceedance day, because the comparison is strict. *)
Lemma exceedance_at_threshold_counterexample :
  ¬ (∀ (may_sep : DataArray float) (thresholds : Thresholds) t c s temp thr,
       may_sep !! t = Some s →
       s.2 c = Some temp →
       sel_dayofyear thresholds (dayofyear s.1) c = Some thr →
       (flag (exceedance may_sep thresholds) t c = true ↔ (thr ≤ temp)%Qc)).
Proof.
  intros Hclaim.
  specialize (Hclaim may_sep_tie thresholds_tie 0 (0, 0)
                (Datetime 2000 5 122, λ _, qz 30) (Qc_of_Z 30) (Qc_of_Z 30)
                eq_refl eq_refl eq_refl).
  assert (Hflag : flag (exceedance may_sep_tie thresholds_tie) 0 (0, 0) = false)
    by (vm_compute; reflexivity).
  rewrite Hflag in Hclaim. destruct Hclaim as [_ Hge].
  discriminate Hge. apply Qcle_refl.
Qed.

(** C2, amended. For every day and cell, the exceedance flag is true if
    and only if the temperature and the threshold of the day's day-of-year
    are both present at that cell and the temperature is strictly greater
    than the threshold. *)
Theorem exceedance_strictly_above may_sep thresholds t c :
  flag (exceedance may_sep thresholds) t c = true ↔
  ∃ s temp thr,
    may_sep !! t = Some s ∧
    s.2 c = Some temp ∧
    sel_dayofyear thresholds (dayofyear s.1) c = Some thr ∧
    (thr < temp)%Qc.
Proof.
  unfold flag, exceedance. rewrite list_lookup_fmap.
  destruct (may_sep !! t) as [s|]; simpl.
  2:{ split; [done | intros (? & ? & ? & ? & _); done]. }
  unfold float_gt.
  destruct (s.2 c) as [temp|] eqn:Htemp;
    destruct (sel_dayofyear thresholds (dayofyear s.1) c) as [thr|] eqn:Hthr.
  - rewrite bool_decide_eq_true. split.
    + intros Hlt. by exists s, temp, thr.
    + intros (s' & temp' & thr' & [= <-] & Ht & Hth & Hlt).
      pose proof (eq_trans (eq_sym Htemp) Ht) as [= <-].
      pose proof (eq_trans (eq_sym Hthr) Hth) as [= <-]. done.
  - split; [done | intros (? & ? & ? & [= <-] & _ & Hth & _)].
    pose proof (eq_trans (eq_sym Hthr) Hth). done.
  - split; [done | intros (? & ? & ? & [= <-] & Ht & _)].
    pose proof (eq_trans (eq_sym Htemp) Ht). done.
  - split; [done | intros (? & ? & ? & [= <-] & Ht & _)].
    pose proof (eq_trans (eq_sym Htemp) Ht). done.
Qed.

(** * Loader and region masks *)

Lemma float_gt_zero_land (lm0 : Cell → float) c :
  float_gt (lm0 c) (Some 0%Qc) = true ↔ is_land lm0 c.
Proof.
  unfold float_gt, is_land. destruct (lm0 c) as [v|].
  - rewrite bool_decide_eq_true. split.
    + intros Hv. by exists v.
    + by intros (v' & [= <-] & Hv).
  - split; [done | by intros (? & ? & _)].
Qed.

Lemma isnan_false (x : float) : negb (isnan x) = true ↔ x ≠ None.
Proof. destruct x; simpl; split; done. Qed.

(** C9, as stated, fails: with both variables present on an empty time
    axis the loader returns no field (selecting the first time step of the
    land mask raises an index error). *)
Lemma load_temperature_data_counterexample :
  ¬ (∀ ds : Dataset,
       is_Some (ds !! "temperature") → is_Some (ds !! "land_mask") →
       ∃ temp_land, load_temperature_data ds = inr temp_land).
Proof.
  intros Hclaim.
  destruct (Hclaim ds_no_time) as [temp_land Hload].
  - by exists [].
  - by exists [].
  - vm_compute in Hload. discriminate Hload.
Qed.

(** C9, amended. The loader raises a missing-variable error if and only if
    the dataset lacks 'temperature' or lacks 'land_mask'; when both are
    present and the land mask has at least one time step, it returns the
    temperature field, on the same time axis, with every cell that is not
    land at the first time step set to missing on every date. *)
Theorem load_temperature_data_missing_variable (ds : Dataset) :
  ((∃ msg, load_temperature_data ds = inl (KeyError msg)) ↔
     ds !! "temperature" = None ∨ ds !! "land_mask" = None) ∧
  (∀ temperature lm0 rest,
     ds !! "temperature" = Some temperature →
     ds !! "land_mask" = Some (lm0 :: rest) →
     ∃ temp_land,
       load_temperature_data ds = inr temp_land ∧
       length temp_land = length temperature ∧
       ∀ t s, temperature !! t = Some s →
         ∃ s', temp_land !! t = Some s' ∧ s'.1 = s.1 ∧
               ∀ c, (is_land lm0.2 c → s'.2 c = s.2 c) ∧
                    (¬ is_land lm0.2 c → s'.2 c = None)).
Proof.
  unfold load_temperature_data. split.
  - destruct (ds !! "temperature") as [temperature|].
    + destruct (ds !! "land_mask") as [[|lm0 rest]|]; simpl.
      * split; [intros [msg [=]] | intros [[=] | [=]]].
      * split; [intros [msg [=]] | intros [[=] | [=]]].
      * split; [by right | by eexists].
    + split; [by left | by eexists].
  - intros temperature lm0 rest -> ->. simpl.
    eexists. split; [done|]. split.
    { unfold where_mask. by rewrite length_fmap. }
    intros t s Hs. unfold where_mask. rewrite list_lookup_fmap, Hs. simpl.
    eexists. split; [done|]. split; [done|]. intros c. simpl.
    destruct (float_gt (lm0.2 c) (Some 0%Qc)) eqn:Hland.
    + split; [done|]. intros Hn. by apply float_gt_zero_land in Hland.
    + split; [|done]. intros Hl%float_gt_zero_land. congruence.
Qed.

Lemma load_temperature_data_missing_variable_witness :
  ∃ temp_land,
    load_temperature_data ds_ex = inr temp_land ∧
    length temp_land = 2.
Proof.
  destruct (proj2 (load_temperature_data_missing_variable ds_ex)
              [(Datetime 2000 5 122, λ _, qz 30);
               (Datetime 2000 5 123, λ _, qz 31)]
              (Datetime 2000 5 122,
               λ c : Cell, if decide (c.2 = 0) then qz 1 else qz 0)
              [(Datetime 2000 5 123, λ _, qz 1)])
    as (temp_land & Hload & Hlen & _).
  - vm_compute; reflexivity.
  - vm_compute; reflexivity.
  - exists temp_land. split; [exact Hload | exact Hlen].
Defined.

Lemma build_region_masks_us g (temp_data : DataArray float) masks :
  build_region_masks g temp_data "us" = inr masks →
  ∃ s0 rest,
    temp_data = s0 :: rest ∧
    masks =
      [("West", λ c : Cell,
          bool_decide (longitude g c.2 < Qc_of_Z (-105))%Qc
          && negb (isnan (s0.2 c)));
       ("Central-East", λ c : Cell,
          bool_decide (Qc_of_Z (-105) ≤ longitude g c.2)%Qc
          && negb (isnan (s0.2 c)));
       ("US48", λ c : Cell, true && negb (isnan (s0.2 c)))].
Proof.
  unfold build_region_masks. destruct temp_data as [|s0 rest]; simpl; [done|].
  intros [= <-]. by exists s0, rest.
Qed.

(** C4. For every input field, region "us" yields, whenever the field has a
    first time step, the three masks West, Central-East and US48; at every
    cell US48 is the disjunction of West and Central-East, West and
    Central-East are never both true, West is longitude < -105 on valid
    land and Central-East is longitude >= -105 on valid land. *)
Theorem build_region_masks_us_partition g (temp_data : DataArray float) :
  (temp_data ≠ [] → ∃ masks, build_region_masks g temp_data "us" = inr masks) ∧
  ∀ masks, build_region_masks g temp_data "us" = inr masks →
    ∃ s0 west central_east us48,
      temp_data !! 0 = Some s0 ∧
      masks = [("West", west); ("Central-East", central_east); ("US48", us48)] ∧
      ∀ c : Cell,
        us48 c = west c || central_east c ∧
        west c && central_east c = false ∧
        (west c = true ↔
           (longitude g c.2 < Qc_of_Z (-105))%Qc ∧ s0.2 c ≠ None) ∧
        (central_east c = true ↔
           (Qc_of_Z (-105) ≤ longitude g c.2)%Qc ∧ s0.2 c ≠ None).
Proof.
  split.
  - destruct temp_data as [|s0 rest]; [done|]. intros _. by eexists.
  - intros masks (s0 & rest & -> & ->)%build_region_masks_us.
    eexists s0, _, _, _. split; [done|]. split; [done|].
    intros c. simpl.
    pose proof (Qclt_nge (longitude g c.2) (Qc_of_Z (-105))) as Hnge.
    rewrite !andb_true_iff, !bool_decide_eq_true, !isnan_false.
    repeat case_bool_decide; destruct (isnan (s0.2 c)); simpl;
      try tauto.
Qed.

Lemma build_region_masks_us_partition_witness :
  ∃ masks,
    build_region_masks grid_ex may_sep_ex "us" = inr masks ∧ length masks = 3.
Proof.
  destruct (proj1 (build_region_masks_us_partition grid_ex may_sep_ex))
    as [masks Hmasks]; [discriminate|].
  destruct (proj2 (build_region_masks_us_partition grid_ex may_sep_ex)
              masks Hmasks) as (s0 & w & ce & u & _ & -> & _).
  by eexists.
Defined.

Lemma valid_land_iff (lm0 t0 : Cell → float) c :
  negb (isnan (if float_gt (lm0 c) (Some 0%Qc) then t0 c else None)) = true ↔
  is_land lm0 c ∧
  (if float_gt (lm0 c) (Some 0%Qc) then t0 c else None) ≠ None.
Proof.
  rewrite isnan_false, <-float_gt_zero_land.
  destruct (float_gt (lm0 c) (Some 0%Qc)); split; tauto.
Qed.

Lemma load_then_build g (ds : Dataset) region temp_land masks :
  load_temperature_data ds = inr temp_land →
  build_region_masks g temp_land region = inr masks →
  ∃ t0 trest lm0 lrest,
    ds !! "temperature" = Some (t0 :: trest) ∧
    ds !! "land_mask" = Some (lm0 :: lrest) ∧
    temp_land = where_mask (t0 :: trest)
                  (λ c, float_gt (lm0.2 c) (Some 0%Qc)).
Proof.
  unfold load_temperature_data.
  destruct (ds !! "temperature") as [temperature|]; [|done].
  destruct (ds !! "land_mask") as [[|lm0 lrest]|]; simpl; [done | | done].
  intros [= <-]. destruct temperature as [|t0 trest]; [done|].
  intros _. by exists t0, trest, lm0, lrest.
Qed.

(** What [build_region_masks] returns, in terms of the first slice. *)
Lemma build_region_masks_cons g s0 (rest : DataArray float) region masks :
  build_region_masks g (s0 :: rest) region = inr masks →
  (region = "us" ∧
   masks =
     [("West", λ c : Cell,
         bool_decide (longitude g c.2 < Qc_of_Z (-105))%Qc
         && negb (isnan (s0.2 c)));
      ("Central-East", λ c : Cell,
         bool_decide (Qc_of_Z (-105) ≤ longitude g c.2)%Qc
         && negb (isnan (s0.2 c)));
      ("US48", λ c : Cell, true && negb (isnan (s0.2 c)))]) ∨
  (region = "nh" ∧ masks = [("NH", λ c : Cell, negb (isnan (s0.2 c)))]).
Proof.
  unfold build_region_masks. simpl.
  case_decide as Hus; [intros [= <-]; by left|].
  case_decide as Hnh; [intros [= <-]; by right | done].
Qed.

(** C10. For every dataset that loads and yields region masks, every mask
    is decided by the first time step alone: a cell belongs to a mask if
    and only if its land_mask value at the first time step is positive, its
    land-masked temperature at the first time step is not missing, and it
    meets the region's longitude test; and any dataset with the same values
    at the first time step of both variables yields the same masks,
    whatever its later time steps hold. *)
Theorem region_masks_decided_by_first_time_step
    g (ds : Dataset) region temp_land masks :
  load_temperature_data ds = inr temp_land →
  build_region_masks g temp_land region = inr masks →
  ∃ t0 trest lm0 lrest s0,
    ds !! "temperature" = Some (t0 :: trest) ∧
    ds !! "land_mask" = Some (lm0 :: lrest) ∧
    temp_land !! 0 = Some s0 ∧
    (∀ name m c, (name, m) ∈ masks →
       (m c = true ↔
          is_land lm0.2 c ∧ s0.2 c ≠ None ∧ region_longitude_test g name c)) ∧
    (∀ (ds' : Dataset) t0' trest' lm0' lrest',
       ds' !! "temperature" = Some (t0' :: trest') →
       ds' !! "land_mask" = Some (lm0' :: lrest') →
       (∀ c, t0'.2 c = t0.2 c) →
       (∀ c, lm0'.2 c = lm0.2 c) →
       ∃ temp_land' masks',
         load_temperature_data ds' = inr temp_land' ∧
         build_region_masks g temp_land' region = inr masks' ∧
         same_masks masks masks').
Proof.
  intros Hload Hbuild.
  destruct (load_then_build g ds region temp_land masks Hload Hbuild)
    as (t0 & trest & lm0 & lrest & Ht & Hl & ->).
  exists t0, trest, lm0, lrest. eexists. split; [done|]. split; [done|].
  split; [done|]. simpl. split.
  - intros name m c Hin.
    apply build_region_masks_cons in Hbuild as [[_ ->] | [_ ->]]; simpl in Hin.
    + rewrite !elem_of_cons, elem_of_nil in Hin.
      unfold region_longitude_test.
      destruct Hin as [[= -> ->] | [[= -> ->] | [[= -> ->] | []]]]; simpl.
      * rewrite andb_true_iff, valid_land_iff, bool_decide_eq_true. tauto.
      * rewrite andb_true_iff, valid_land_iff, bool_decide_eq_true. tauto.
      * rewrite valid_land_iff. tauto.
    + rewrite elem_of_cons, elem_of_nil in Hin.
      unfold region_longitude_test.
      destruct Hin as [[= -> ->] | []]; simpl.
      rewrite valid_land_iff. tauto.
  - intros ds' t0' trest' lm0' lrest' Ht' Hl' Htemp Hland.
    unfold load_temperature_data. rewrite Ht', Hl'. simpl.
    apply build_region_masks_cons in Hbuild as [[-> ->] | [-> ->]].
    + eexists _, _. split; [done|]. split; [reflexivity|].
      unfold same_masks.
      repeat (constructor;
               [simpl; split; [reflexivity|]; intros c;
                by rewrite Htemp, Hland |]).
      constructor.
    + eexists _, _. split; [done|]. split; [reflexivity|].
      unfold same_masks.
      repeat (constructor;
               [simpl; split; [reflexivity|]; intros c;
                by rewrite Htemp, Hland |]).
      constructor.
Qed.

Lemma region_masks_decided_by_first_time_step_witness :
  ∃ t0 trest lm0 lrest,
    ds_ex !! "temperature" = Some (t0 :: trest) ∧
    ds_ex !! "land_mask" = Some (lm0 :: lrest).
Proof.
  destruct (region_masks_decided_by_first_time_step grid_ex ds_ex "us" _ _
              eq_refl eq_refl)
    as (t0 & trest & lm0 & lrest & _ & Ht & Hl & _).
  exists t0, trest, lm0, lrest. split; [exact Ht | exact Hl].
Defined.

(** * Trailing average *)

Lemma dropna_replicate k (v : Qc) : dropna (replicate k (Some v)) = replicate k v.
Proof. unfold dropna. induction k as [|k IH]; csimpl; [done | by rewrite IH]. Qed.

Lemma Qc_of_nat_S k : Qc_of_nat (S k) = (Qc_of_nat k + 1)%Qc.
Proof.
  unfold Qc_of_nat. by rewrite Nat2Z.inj_succ, <-Z.add_1_r, Z2Qc_inj_add.
Qed.

Lemma Qc_of_nat_nonzero k : k ≠ 0 → Qc_of_nat k ≠ 0%Qc.
Proof.
  intros Hk Hz. unfold Qc_of_nat in Hz.
  rewrite <-Z2Qc_inj_0 in Hz. apply Z2Qc_inj in Hz. lia.
Qed.

Lemma Qc_sum_replicate k (v : Qc) :
  Qc_sum (replicate k v) = (v * Qc_of_nat k)%Qc.
Proof.
  induction k as [|k IH].
  - change (0 = v * Qc_of_Z 0)%Qc. rewrite Z2Qc_inj_0. ring.
  - change (v + Qc_sum (replicate k v) = v * Qc_of_nat (S k))%Qc.
    rewrite IH, Qc_of_nat_S. ring.
Qed.

Lemma mean_replicate k (v : Qc) :
  k ≠ 0 → (Qc_sum (replicate k v) / Qc_of_nat k)%Qc = v.
Proof.
  intros Hk. rewrite Qc_sum_replicate.
  apply Qcdiv_mult_l. by apply Qc_of_nat_nonzero.
Qed.

Lemma window_at_replicate {A : Type} w i n (x : A) :
  i < n → window_at w i (replicate n x) = replicate (min w (S i)) x.
Proof.
  intros Hi. unfold window_at. rewrite take_replicate, drop_replicate.
  f_equal. lia.
Qed.

Lemma trailing_average_lookup (values : list float) W :
  1 ≤ W →
  ∃ out,
    trailing_average values W = inr out ∧
    length out = length values ∧
    ∀ i, i < length values →
      out !! i = Some (nanmean (window_at W i values)).
Proof.
  intros HW. unfold trailing_average, rolling_mean.
  case_decide; [lia|]. eexists. split; [done|]. split.
  { by rewrite length_imap. }
  intros i Hi. rewrite list_lookup_imap.
  destruct (lookup_lt_is_Some_2 values i Hi) as [x ->]. simpl.
  unfold nanmean. f_equal.
  destruct (dropna (window_at W i values)) as [|q valid];
    repeat case_decide; simpl in *; try done; lia.
Qed.

(** C8. For every series and every window [W >= 1], the trailing average
    has the length of the input, and its value at index [i] is the mean of
    the valid entries among indices [max 0 (i-W+1) .. i], missing when none
    of them is valid.  With [W = 15], a constant series of value [v] of
    length at least 15 gives [v] at every index from the 15th on. *)
Theorem trailing_average_window_mean (values : list float) W :
  1 ≤ W →
  ∃ out,
    trailing_average values W = inr out ∧
    length out = length values ∧
    (∀ i, i < length values →
       ∃ win,
         length win = min W (S i) ∧
         (∀ k, k < length win → win !! k = values !! (S i - W + k)) ∧
         (dropna win = [] → out !! i = Some None) ∧
         (dropna win ≠ [] →
            out !! i = Some (Some (Qc_sum (dropna win)
                                    / Qc_of_nat (length (dropna win)))%Qc))) ∧
    (∀ v, W = 15 → 15 ≤ length values →
       values = replicate (length values) (Some v) →
       ∀ i, 14 ≤ i < length values → out !! i = Some (Some v)).
Proof.
  intros HW.
  destruct (trailing_average_lookup values W HW) as (out & Heq & Hlen & Hout).
  exists out. split; [done|]. split; [done|]. split.
  - intros i Hi. exists (window_at W i values).
    split; [by apply window_at_length|]. split.
    + intros k Hk. rewrite window_at_lookup.
      rewrite window_at_length in Hk by done. case_decide; [done | lia].
    + rewrite (Hout i Hi). unfold nanmean.
      destruct (dropna (window_at W i values)) as [|q valid] eqn:Hvalid.
      * split; [done | congruence].
      * split; [done|]. intros _. by destruct (decide _).
  - intros v -> Hn Hconst i [Hi1 Hi2].
    rewrite (Hout i Hi2). f_equal. rewrite Hconst.
    rewrite window_at_replicate by done. unfold nanmean.
    rewrite dropna_replicate, length_replicate.
    case_decide; [lia|]. f_equal. apply mean_replicate. lia.
Qed.

Lemma trailing_average_window_mean_witness :
  ∃ out,
    trailing_average (replicate 16 (qz 7)) 15 = inr out ∧
    out !! 15 = Some (qz 7).
Proof.
  destruct (trailing_average_window_mean (replicate 16 (qz 7)) 15)
    as (out & Heq & _ & _ & Hconst); [lia|].
  exists out. split; [exact Heq|].
  apply Hconst; [reflexivity | simpl; lia | reflexivity | simpl; lia].
Defined.

(** * Annual aggregation *)

Lemma sum_b2n_in_year (heatwave_days : DataArray bool) y c :
  sum_list (Nat.b2n <$> column (in_year y heatwave_days) c)
    = annual_count heatwave_days y c.
Proof.
  unfold annual_count, in_year, column.
  induction heatwave_days as [|s hw IH]; [done|].
  rewrite !filter_cons. destruct (decide (year s.1 = y)) as [Hy | Hy].
  - csimpl. rewrite IH. destruct (s.2 c) eqn:Hsc.
    + rewrite decide_True by done. done.
    + rewrite decide_False by (intros [_ ?]; congruence). done.
  - rewrite decide_False by (intros [? _]; done). done.
Qed.

Lemma dropna_where2d (counts : Cell → nat) (mask2d : Cell → bool)
    (cs : list Cell) :
  dropna (where2d counts mask2d <$> cs)
    = (λ c, Qc_of_nat (counts c)) <$> filter (λ c, mask2d c = true) cs.
Proof.
  unfold dropna, where2d. induction cs as [|c cs IH]; [done|].
  csimpl. rewrite filter_cons.
  destruct (decide (mask2d c = true)) as [Hm | Hm].
  - rewrite Hm. csimpl. by rewrite IH.
  - apply not_true_is_false in Hm. by rewrite Hm.
Qed.

Lemma nanmean_where2d g (counts : Cell → nat) (mask2d : Cell → bool) :
  (selected_cells g mask2d = [] →
     nanmean (where2d counts mask2d <$> cells g) = None) ∧
  (selected_cells g mask2d ≠ [] →
     nanmean (where2d counts mask2d <$> cells g)
       = Some (Qc_sum ((λ c, Qc_of_nat (counts c)) <$> selected_cells g mask2d)
               / Qc_of_nat (length (selected_cells g mask2d)))%Qc).
Proof.
  unfold nanmean. rewrite dropna_where2d, length_fmap.
  fold (selected_cells g mask2d).
  destruct (selected_cells g mask2d) as [|c cs]; simpl.
  - split; [done | congruence].
  - split; [done|]. intros _. done.
Qed.

Lemma groupby_year_sum_years (heatwave_days : DataArray bool) y :
  y ∈ (groupby_year_sum heatwave_days).*1 ↔
  ∃ s, s ∈ heatwave_days ∧ year s.1 = y.
Proof.
  unfold groupby_year_sum. rewrite <-list_fmap_compose.
  rewrite list_elem_of_fmap. split.
  - intros (y' & -> & Hin). simpl.
    rewrite merge_sort_Permutation, elem_of_remove_dups in Hin.
    apply list_elem_of_fmap in Hin as (s & -> & Hs). by exists s.
  - intros (s & Hs & <-). exists (year s.1). split; [done|].
    rewrite merge_sort_Permutation, elem_of_remove_dups.
    apply list_elem_of_fmap. by exists s.
Qed.

(** C7. For every region and every year of the record: when the region's
    mask selects no cell of the grid, the entry of the output series is
    missing (neither zero nor an exception); when it selects at least one
    cell, the entry is the mean, over exactly the selected cells, of the
    cell's count of heatwave days in that year. *)
Theorem aggregate_annual_per_region_no_data g (heatwave_days : DataArray bool)
    (region_masks : list (string * (Cell → bool))) :
  ∃ years regional,
    aggregate_annual_per_region g heatwave_days region_masks
      = (years, regional) ∧
    (∀ y, y ∈ years ↔ ∃ s, s ∈ heatwave_days ∧ year s.1 = y) ∧
    length regional = length region_masks ∧
    ∀ r region mask2d,
      region_masks !! r = Some (region, mask2d) →
      ∃ series,
        regional !! r = Some (region, series) ∧
        length series = length years ∧
        ∀ k y, years !! k = Some y →
          (selected_cells g mask2d = [] →
             series !! k = Some None ∧ series !! k ≠ Some (Some 0%Qc)) ∧
          (selected_cells g mask2d ≠ [] →
             series !! k =
               Some (Some (Qc_sum ((λ c, Qc_of_nat
                                           (annual_count heatwave_days y c))
                                     <$> selected_cells g mask2d)
                           / Qc_of_nat (length (selected_cells g mask2d)))%Qc)).
Proof.
  unfold aggregate_annual_per_region. eexists _, _. split; [done|].
  split; [apply groupby_year_sum_years|].
  split; [by rewrite length_fmap|].
  intros r region mask2d Hr. rewrite list_lookup_fmap, Hr. simpl.
  eexists. split; [done|]. split; [by rewrite !length_fmap|].
  intros k y Hk. rewrite !list_lookup_fmap.
  rewrite list_lookup_fmap in Hk.
  destruct (groupby_year_sum heatwave_days !! k) as [[y' counts]|] eqn:Hyc;
    [|done].
  simpl in Hk. injection Hk as ->. simpl.
  unfold groupby_year_sum in Hyc. rewrite list_lookup_fmap in Hyc.
  destruct (merge_sort Z.le _ !! k) as [y0|]; [|done].
  simpl in Hyc. injection Hyc as -> <-.
  destruct (nanmean_where2d g
              (λ c, sum_list (Nat.b2n <$> column (in_year y heatwave_days) c))
              mask2d) as [Hnone Hsome].
  split.
  - intros Hsel. rewrite (Hnone Hsel). done.
  - intros Hsel. rewrite (Hsome Hsel). do 2 f_equal.
    f_equal. f_equal. apply list_fmap_ext. intros _ c _. f_equal. apply sum_b2n_in_year.
Qed.

Lemma aggregate_annual_per_region_no_data_witness :
  ∃ years regional west us48,
    aggregate_annual_per_region grid_ex heatwave_ex region_masks_ex
      = (years, regional) ∧
    regional !! 0 = Some ("West", west) ∧ west !! 0 = Some None ∧
    regional !! 1 = Some ("US48", us48) ∧ us48 !! 0 = Some (qz 2).
Proof.
  destruct (aggregate_annual_per_region_no_data grid_ex heatwave_ex
              region_masks_ex)
    as (years & regional & Heq & _ & _ & Hseries).
  destruct (Hseries 0 "West" (λ _, false) eq_refl)
    as (west & Hw & _ & Hwest).
  destruct (Hseries 1 "US48" (λ _, true) eq_refl)
    as (us48 & Hu & _ & Hus48).
  assert (Hy : years !! 0 = Some 2000%Z).
  { change years with (fst (years, regional)). rewrite <-Heq.
    vm_compute. reflexivity. }
  exists years, regional, west, us48.
  split; [exact Heq|]. split; [exact Hw|]. split.
  - apply (proj1 (Hwest 0 2000%Z Hy)). reflexivity.
  - split; [exact Hu|].
    rewrite (proj2 (Hus48 0 2000%Z Hy)) by (vm_compute; discriminate).
    unfold qz. do 2 f_equal. apply Qc_is_canon. vm_compute. reflexivity.
Defined.

(** * Threshold estimator *)

Lemma Qc_of_nat_le (n m : nat) : n ≤ m → (Qc_of_nat n ≤ Qc_of_nat m)%Qc.
Proof.
  intros H. unfold Qc_of_nat. apply (proj1 (Z2Qc_inj_le _ _)). lia.
Qed.

Lemma Qc_floor_bounds (h : Qc) :
  (Qc_of_Z (Qfloor h) ≤ h)%Qc ∧ (h < Qc_of_Z (Qfloor h) + 1)%Qc.
Proof.
  split.
  - unfold Qcle. simpl. apply Qfloor_le.
  - rewrite <-Z2Qc_inj_1, <-Z2Qc_inj_add. unfold Qclt. simpl.
    apply Qlt_floor.
Qed.

Lemma Qc_floor_range (h : Qc) (m : nat) :
  (0 ≤ h)%Qc → (h ≤ Qc_of_nat m)%Qc → (0 ≤ Qfloor h ≤ Z.of_nat m)%Z.
Proof.
  intros H0 Hm. split.
  - change 0%Z with (Qfloor 0). apply Qfloor_resp_le. exact H0.
  - rewrite <-(Qfloor_Z (Z.of_nat m)). apply Qfloor_resp_le. exact Hm.
Qed.

(** The rank position [q * (n - 1)] splits in one way only into a whole
    part and a fraction in [0, 1). *)
Lemma rank_split_unique (lo1 lo2 : nat) (f1 f2 : Qc) :
  (Qc_of_nat lo1 + f1 = Qc_of_nat lo2 + f2)%Qc →
  (0 ≤ f1)%Qc → (f1 < 1)%Qc → (0 ≤ f2)%Qc → (f2 < 1)%Qc →
  lo1 = lo2 ∧ f1 = f2.
Proof.
  assert (Hlt : ∀ (a b : nat) (fa fb : Qc),
            (Qc_of_nat a + fa = Qc_of_nat b + fb)%Qc →
            (fa < 1)%Qc → (0 ≤ fb)%Qc → ¬ a < b).
  { intros a b fa fb Heq Hfa Hfb Hab.
    assert (H1 : (Qc_of_nat a + fa < Qc_of_nat a + 1)%Qc)
      by (by apply Qcplus_lt_mono_l).
    assert (H2 : (Qc_of_nat a + 1 ≤ Qc_of_nat b)%Qc).
    { rewrite <-Qc_of_nat_S. apply Qc_of_nat_le. lia. }
    assert (H3 : (Qc_of_nat b + 0 ≤ Qc_of_nat b + fb)%Qc)
      by (by apply Qcplus_le_mono_l).
    rewrite Qcplus_0_r in H3. rewrite Heq in H1.
    apply (Qclt_not_le _ _ H1). by apply Qcle_trans with (Qc_of_nat b). }
  intros Heq H1 H2 H3 H4.
  assert (lo1 = lo2) as ->.
  { pose proof (Hlt lo1 lo2 f1 f2 Heq H2 H3).
    pose proof (Hlt lo2 lo1 f2 f1 (eq_sym Heq) H4 H1). lia. }
  split; [done|].
  assert (f1 = (Qc_of_nat lo2 + f1) - Qc_of_nat lo2)%Qc as -> by ring.
  rewrite Heq. ring.
Qed.

Lemma interpolate_linear_nil q : interpolate_linear q [] = None.
Proof. unfold interpolate_linear. by rewrite lookup_nil. Qed.

Lemma interpolate_linear_spec (q : Qc) (sorted : list Qc) :
  (0 ≤ q)%Qc → (q ≤ 1)%Qc → sorted ≠ [] →
  ∃ (lo : nat) (frac a b : Qc),
    (Qc_of_nat lo + frac = q * Qc_of_nat (length sorted - 1))%Qc ∧
    (0 ≤ frac)%Qc ∧ (frac < 1)%Qc ∧
    sorted !! lo = Some a ∧
    sorted !! (min (lo + 1) (length sorted - 1)) = Some b ∧
    interpolate_linear q sorted = Some (a + frac * (b - a))%Qc.
Proof.
  intros Hq0 Hq1 Hne. unfold interpolate_linear.
  assert (Hn : 1 ≤ length sorted) by (destruct sorted; [done | simpl; lia]).
  replace (Z.of_nat (length sorted) - 1)%Z
    with (Z.of_nat (length sorted - 1)) by lia.
  fold (Qc_of_nat (length sorted - 1)).
  set (m := length sorted - 1).
  set (h := (q * Qc_of_nat m)%Qc).
  assert (Hm0 : (0 ≤ Qc_of_nat m)%Qc).
  { unfold Qc_of_nat. rewrite <-Z2Qc_inj_0.
    apply (proj1 (Z2Qc_inj_le _ _)). lia. }
  assert (Hh0 : (0 ≤ h)%Qc).
  { unfold h. rewrite <-(Qcmult_0_l (Qc_of_nat m)).
    by apply Qcmult_le_compat_r. }
  assert (Hh1 : (h ≤ Qc_of_nat m)%Qc).
  { unfold h. rewrite <-(Qcmult_1_l (Qc_of_nat m)) at 2.
    by apply Qcmult_le_compat_r. }
  destruct (Qc_floor_range h m Hh0 Hh1) as [Hz0 Hz1].
  destruct (Qc_floor_bounds h) as [Hf0 Hf1].
  set (lo := Z.to_nat (Qfloor h)) in *.
  assert (Hlo : Qc_of_nat lo = Qc_of_Z (Qfloor h)).
  { unfold Qc_of_nat, lo. by rewrite Z2Nat.id. }
  destruct (lookup_lt_is_Some_2 sorted lo) as [a Ha]; [lia|].
  destruct (lookup_lt_is_Some_2 sorted (min (lo + 1) m)) as [b Hb]; [lia|].
  exists lo, (h - Qc_of_nat lo)%Qc, a, b.
  rewrite Ha, Hb. split; [ring|]. rewrite Hlo. split; [|split].
  - apply Qcle_minus_iff in Hf0. exact Hf0.
  - apply (Qcplus_lt_mono_r _ _ (Qc_of_Z (Qfloor h))).
    replace (h - Qc_of_Z (Qfloor h) + Qc_of_Z (Qfloor h))%Qc with h by ring.
    by rewrite (Qcplus_comm 1).
  - unfold Qc_of_nat in Hlo. by rewrite Hlo.
Qed.

Lemma is_linear_quantile_unique q obs r1 r2 :
  is_linear_quantile q obs r1 → is_linear_quantile q obs r2 → r1 = r2.
Proof.
  intros (s1 & lo1 & f1 & a1 & b1 & Hs1 & Hp1 & He1 & H01 & H11 & Ha1 & Hb1 & ->)
         (s2 & lo2 & f2 & a2 & b2 & Hs2 & Hp2 & He2 & H02 & H12 & Ha2 & Hb2 & ->).
  assert (s1 = s2) as ->.
  { apply (Sorted_unique Qcle); [done | done |]. by rewrite Hp1, Hp2. }
  destruct (rank_split_unique lo1 lo2 f1 f2) as [-> ->]; try done.
  { by rewrite He1, He2. }
  rewrite Ha1 in Ha2. rewrite Hb1 in Hb2.
  injection Ha2 as ->. injection Hb2 as ->. done.
Qed.

Lemma nanquantile_spec (q : Qc) (xs : list float) :
  (0 ≤ q)%Qc → (q ≤ 1)%Qc →
  (dropna xs = [] → nanquantile q xs = None) ∧
  (dropna xs ≠ [] →
     ∃ r, nanquantile q xs = Some r ∧ is_linear_quantile q (dropna xs) r).
Proof.
  intros Hq0 Hq1. unfold nanquantile.
  pose proof (merge_sort_Permutation Qcle (dropna xs)) as Hperm.
  pose proof (Sorted_merge_sort Qcle (dropna xs)) as Hsorted.
  set (sorted := merge_sort Qcle (dropna xs)) in *.
  split.
  - intros Hnil. rewrite Hnil in Hperm. apply Permutation_nil_r in Hperm.
    rewrite Hperm. apply interpolate_linear_nil.
  - intros Hne.
    assert (Hsne : sorted ≠ []).
    { intros Hnil. rewrite Hnil in Hperm. symmetry in Hperm.
      by apply Permutation_nil_r in Hperm. }
    destruct (interpolate_linear_spec q sorted Hq0 Hq1 Hsne)
      as (lo & frac & a & b & He & H0 & H1 & Ha & Hb & Hr).
    rewrite (Permutation_length Hperm) in He, Hb.
    eexists. split; [exact Hr|].
    by exists sorted, lo, frac, a, b.
Qed.

Lemma dropna_column_on_dayofyear (may_sep : DataArray float) d c :
  dropna (column (on_dayofyear d may_sep) c) = pooled_observations may_sep d c.
Proof.
  unfold dropna, column, on_dayofyear, pooled_observations.
  induction may_sep as [|s a IH]; [done|].
  rewrite filter_cons. csimpl.
  destruct (decide (dayofyear s.1 = d)) as [Hd | Hd]; csimpl.
  - rewrite IH. done.
  - exact IH.
Qed.

Lemma sel_dayofyear_labels (f : nat → Cell → float) (labels : list nat) d :
  d ∈ labels → sel_dayofyear ((λ d, (d, f d)) <$> labels) d = f d.
Proof.
  unfold sel_dayofyear. induction labels as [|x l IH]; intros Hin.
  - by apply elem_of_nil in Hin.
  - csimpl. destruct (decide (x = d)) as [-> | Hne]; [done|].
    apply elem_of_cons in Hin as [-> | Hin]; [done|].
    specialize (IH Hin).
    destruct (list_find (λ e : nat * (Cell → float), e.1 = d)
                ((λ d, (d, f d)) <$> l)) as [[i e]|]; done.
Qed.

Lemma groupby_labels_elem (keys : list nat) d :
  d ∈ groupby_labels keys ↔ d ∈ keys.
Proof.
  unfold groupby_labels.
  by rewrite merge_sort_Permutation, elem_of_remove_dups.
Qed.

Lemma groupby_labels_NoDup (keys : list nat) : NoDup (groupby_labels keys).
Proof.
  unfold groupby_labels. rewrite merge_sort_Permutation.
  apply NoDup_remove_dups.
Qed.

Lemma thresholds_labels (may_sep : DataArray float) :
  (compute_daily_90th_thresholds may_sep).*1
    = groupby_labels ((λ s, dayofyear s.1) <$> may_sep).
Proof.
  unfold compute_daily_90th_thresholds. rewrite <-list_fmap_compose.
  apply list_fmap_id.
Qed.

(** C5. For every seasonal field, the threshold field holds exactly one
    entry per day-of-year of the record; at every cell, that entry is
    missing when the cell has no valid observation on that day-of-year in
    any year, and otherwise it is the one value that the linear-
    interpolation quantile estimator assigns, at level 0.9, to the cell's
    valid observations for that day-of-year pooled over all years.
    Missing observations are left out of the sample. *)
Theorem compute_daily_90th_thresholds_percentile (may_sep : DataArray float) :
  NoDup (compute_daily_90th_thresholds may_sep).*1 ∧
  (∀ d, d ∈ (compute_daily_90th_thresholds may_sep).*1 ↔
        ∃ s, s ∈ may_sep ∧ dayofyear s.1 = d) ∧
  ∀ d c,
    d ∈ (compute_daily_90th_thresholds may_sep).*1 →
    (pooled_observations may_sep d c = [] →
       sel_dayofyear (compute_daily_90th_thresholds may_sep) d c = None) ∧
    (pooled_observations may_sep d c ≠ [] →
       ∃ r,
         sel_dayofyear (compute_daily_90th_thresholds may_sep) d c = Some r ∧
         is_linear_quantile (Q2Qc (9 # 10))
           (pooled_observations may_sep d c) r ∧
         ∀ r', is_linear_quantile (Q2Qc (9 # 10))
                 (pooled_observations may_sep d c) r' → r' = r).
Proof.
  rewrite thresholds_labels. split; [apply groupby_labels_NoDup|]. split.
  - intros d. rewrite groupby_labels_elem, list_elem_of_fmap.
    split; intros (s & ? & ?); by exists s.
  - intros d c Hd. unfold compute_daily_90th_thresholds.
    rewrite (sel_dayofyear_labels
               (λ d c, nanquantile (Q2Qc (9 # 10))
                         (column (on_dayofyear d may_sep) c)) _ d Hd).
    destruct (nanquantile_spec (Q2Qc (9 # 10))
                (column (on_dayofyear d may_sep) c)) as [Hnone Hsome];
      [done | done |].
    rewrite dropna_column_on_dayofyear in Hnone, Hsome.
    split; [exact Hnone|]. intros Hne.
    destruct (Hsome Hne) as (r & Hr & Hq). exists r.
    split; [exact Hr|]. split; [exact Hq|].
    intros r' Hq'. by apply (is_linear_quantile_unique _ _ _ _ Hq' Hq).
Qed.

Lemma compute_daily_90th_thresholds_percentile_witness :
  ∃ r,
    sel_dayofyear (compute_daily_90th_thresholds may_sep_q) 122 (0, 0) = Some r ∧
    is_linear_quantile (Q2Qc (9 # 10)) [Qc_of_Z 20; Qc_of_Z 30] r.
Proof.
  destruct (compute_daily_90th_thresholds_percentile may_sep_q)
    as (_ & Hkeys & Hval).
  destruct (Hval 122 (0, 0)) as [_ Hsome].
  { apply Hkeys. eexists. split; [apply list_elem_of_here | reflexivity]. }
  destruct Hsome as (r & Hr & Hq & _); [discriminate|].
  exists r. split; [exact Hr | exact Hq].
Defined.

(** * Further properties of the run detector *)

Lemma in_run_one (x : list bool) t : in_run 1 x t ↔ x !! t = Some true.
Proof.
  split.
  - intros (a & b & Ht & _ & _ & Hall). apply Hall. lia.
  - intros Hx. exists t, (S t). split; [lia|]. split; [lia|]. split.
    + apply lookup_lt_Some in Hx. lia.
    + intros j Hj. by replace j with t by lia.
Qed.

Lemma sum_b2n_run (l : list bool) a b :
  b ≤ length l →
  (∀ j, a ≤ j < b → l !! j = Some true) →
  b - a ≤ sum_list (Nat.b2n <$> l).
Proof.
  revert a b. induction l as [|x l IH]; intros a b Hb Hall; simpl in Hb.
  - lia.
  - destruct b as [|b]; [lia|]. csimpl. destruct a as [|a].
    + assert (x = true) as ->.
      { specialize (Hall 0 ltac:(lia)). by injection Hall. }
      specialize (IH 0 b ltac:(lia)). simpl.
      assert (b - 0 ≤ sum_list (Nat.b2n <$> l)); [|lia].
      apply IH. intros j Hj. apply (Hall (S j)). lia.
    + specialize (IH a b ltac:(lia)).
      assert (b - a ≤ sum_list (Nat.b2n <$> l)); [|simpl; lia].
      apply IH. intros j Hj. apply (Hall (S j)). lia.
Qed.

Lemma sum_b2n_zero (l : list bool) :
  sum_list (Nat.b2n <$> l) = 0 ↔ ∀ t, l !! t ≠ Some true.
Proof.
  induction l as [|x l IH]; csimpl.
  - split; [intros _ t; by rewrite lookup_nil | done].
  - split.
    + intros Hs [|t]; simpl.
      * destruct x; simpl in Hs; [lia | done].
      * apply IH. lia.
    + intros Hall. pose proof (Hall 0) as H0. simpl in H0.
      destruct x; [done|]. simpl. apply IH. intros t. apply (Hall (S t)).
Qed.

(** With a minimum run length of one day, the heatwave days are the
    exceedance days. *)
Theorem heatwave_series_min_run_one (exceed : list bool) :
  heatwave_series 1 exceed = exceed.
Proof.
  apply bool_series_eq; [apply heatwave_series_length|].
  intros t. rewrite heatwave_series_true by lia. apply in_run_one.
Qed.

(** Turning more days into exceedance days never removes a heatwave day. *)
Theorem heatwave_series_monotone (x y : list bool) N t :
  1 ≤ N → length x = length y →
  (∀ j, x !! j = Some true → y !! j = Some true) →
  heatwave_series N x !! t = Some true →
  heatwave_series N y !! t = Some true.
Proof.
  intros HN Hlen Hle. rewrite !heatwave_series_true by done.
  intros (a & b & Ht & Hab & Hb & Hall).
  exists a, b. split; [done|]. split; [done|]. split; [lia|].
  intros j Hj. apply Hle, Hall, Hj.
Qed.

Lemma heatwave_series_monotone_witness :
  heatwave_series 2 [true; true; true; false] !! 1 = Some true.
Proof.
  apply (heatwave_series_monotone [false; true; true; false]
           [true; true; true; false] 2 1).
  - lia.
  - reflexivity.
  - intros [|[|[|[|j]]]]; simpl; congruence.
  - reflexivity.
Defined.


Lemma in_run_replicate N n t : N ≤ n → t < n → in_run N (replicate n true) t.
Proof.
  intros HN Ht. exists 0, n. split; [lia|]. split; [lia|].
  split; [by rewrite length_replicate|].
  intros j Hj. apply lookup_replicate_2. lia.
Qed.

Lemma sum_b2n_pos (l : list bool) :
  0 < sum_list (Nat.b2n <$> l) → ∃ t, l !! t = Some true.
Proof.
  induction l as [|x l IH]; csimpl; [lia|].
  destruct x; [intros _; by exists 0|]. simpl. intros Hpos.
  destruct (IH Hpos) as [t Ht]. by exists (S t).
Qed.

(** Raising the minimum run length never adds a heatwave day. *)
Theorem heatwave_series_longer_runs_fewer_days (exceed : list bool) N M t :
  1 ≤ N → N ≤ M →
  heatwave_series M exceed !! t = Some true →
  heatwave_series N exceed !! t = Some true.
Proof.
  intros HN HM. rewrite !heatwave_series_true by lia.
  intros (a & b & Ht & Hab & Hb & Hall).
  exists a, b. split; [done|]. split; [lia|]. by split.
Qed.

Lemma heatwave_series_longer_runs_fewer_days_witness :
  heatwave_series 2 [true; true; true; false] !! 0 = Some true.
Proof.
  apply (heatwave_series_longer_runs_fewer_days _ 2 3 0); [lia | lia|].
  reflexivity.
Defined.



(** When every day of a record of at least [N] days is an exceedance day,
    every day is a heatwave day, the first [N - 1] days included (which are
    members of the run although none of them ends a window of [N] days). *)
Theorem heatwave_series_all_exceed N n :
  1 ≤ N → N ≤ n →
  heatwave_series N (replicate n true) = replicate n true ∧
  ∀ t, t < N - 1 → end_of_runs N (replicate n true) !! t = Some false.
Proof.
  intros HN Hn. split.
  - apply bool_series_eq; [apply heatwave_series_length|].
    intros t. rewrite heatwave_series_true by done. split.
    + intros (a & b & Ht & _ & Hb & _). rewrite length_replicate in Hb.
      apply lookup_replicate_2. lia.
    + intros [_ Ht]%lookup_replicate. by apply in_run_replicate.
  - intros t Ht.
    destruct (lookup_lt_is_Some_2 (end_of_runs N (replicate n true)) t)
      as [b Hb].
    { rewrite end_of_runs_length, length_replicate. lia. }
    destruct b; [|done].
    apply end_of_runs_true in Hb as (_ & ? & _); [lia | done].
Qed.

Lemma heatwave_series_all_exceed_witness :
  heatwave_series 6 (replicate 8 true) = replicate 8 true.
Proof.
  apply (heatwave_series_all_exceed 6 8); lia.
Defined.



(** Over the whole record, a cell has either no heatwave day or at least
    [N] of them. *)
Theorem identify_heatwave_days_none_or_at_least_min_run
    may_sep thresholds N heatwave c :
  identify_heatwave_days may_sep thresholds N = inr heatwave →
  sum_list (Nat.b2n <$> column heatwave c) = 0 ∨
  N ≤ sum_list (Nat.b2n <$> column heatwave c).
Proof.
  intros Hid.
  assert (HN : 1 ≤ N).
  { unfold identify_heatwave_days in Hid. case_decide; [done | lia]. }
  destruct (identify_heatwave_days_column may_sep thresholds N c HN)
    as (heatwave' & Heq & _ & Hcol).
  rewrite Hid in Heq. injection Heq as <-. rewrite Hcol.
  set (x := column (exceedance may_sep thresholds) c).
  destruct (decide (sum_list (Nat.b2n <$> heatwave_series N x) = 0))
    as [Hz | Hnz]; [by left | right].
  destruct (sum_b2n_pos (heatwave_series N x)) as [t Ht]; [lia|].
  apply heatwave_series_true in Ht as (a & b & Hab & Hlen & Hb & Hall);
    [|done].
  assert (b - a ≤ sum_list (Nat.b2n <$> heatwave_series N x)); [|lia].
  apply sum_b2n_run.
  - by rewrite heatwave_series_length.
  - intros j Hj. apply heatwave_series_true; [done|]. by exists a, b.
Qed.

Lemma identify_heatwave_days_none_or_at_least_min_run_witness :
  ∃ heatwave,
    identify_heatwave_days may_sep_ex thresholds_ex 6 = inr heatwave ∧
    6 ≤ sum_list (Nat.b2n <$> column heatwave (0, 0)).
Proof.
  eexists. split; [reflexivity|].
  destruct (identify_heatwave_days_none_or_at_least_min_run
              may_sep_ex thresholds_ex 6 _ (0, 0) eq_refl) as [Hz | Hge].
  - vm_compute in Hz. discriminate Hz.
  - exact Hge.
Defined.

(** * Further properties of the aggregation *)

Lemma sum_list_fmap_add {A : Type} (f h : A → nat) (l : list A) :
  sum_list ((λ y, f y + h y) <$> l)
    = sum_list (f <$> l) + sum_list (h <$> l).
Proof. induction l as [|y l IH]; csimpl; [done | lia]. Qed.

Lemma sum_list_indicator (k : Z) (ys : list Z) :
  NoDup ys → k ∈ ys →
  sum_list ((λ y, if decide (k = y) then 1 else 0) <$> ys) = 1.
Proof.
  induction 1 as [|y ys Hnotin Hnd IH]; intros Hin.
  - by apply elem_of_nil in Hin.
  - csimpl. apply elem_of_cons in Hin as [-> | Hin].
    + rewrite decide_True by done.
      assert (sum_list ((λ y0, if decide (y = y0) then 1 else 0) <$> ys) = 0)
        as ->; [|done].
      clear IH Hnd. induction ys as [|z ys IH]; [done|].
      csimpl. rewrite decide_False.
      * apply IH. intros ?. apply Hnotin. by right.
      * intros ->. apply Hnotin. by left.
    + rewrite decide_False by (intros ->; done). by rewrite IH.
Qed.

Lemma sum_list_zero_fmap {A : Type} (l : list A) :
  sum_list ((λ _, 0) <$> l) = 0.
Proof. induction l; csimpl; [done | lia]. Qed.

Lemma count_by_label_cons (s : datetime * (Cell → bool)) (hw : DataArray bool)
    (c : Cell) (ys : list Z) :
  sum_list ((λ y, annual_count (s :: hw) y c) <$> ys)
    = sum_list ((λ y, if decide (year s.1 = y ∧ s.2 c = true) then 1 else 0)
                  <$> ys)
      + sum_list ((λ y, annual_count hw y c) <$> ys).
Proof.
  rewrite <-sum_list_fmap_add. f_equal. apply list_fmap_ext. intros _ y _.
  unfold annual_count. rewrite filter_cons.
  destruct (decide (year s.1 = y ∧ s.2 c = true)); done.
Qed.

(** Counting by label loses and duplicates nothing. *)
Lemma count_by_label (hw : DataArray bool) (c : Cell) (ys : list Z) :
  NoDup ys → (∀ s, s ∈ hw → year s.1 ∈ ys) →
  sum_list ((λ y, annual_count hw y c) <$> ys)
    = sum_list (Nat.b2n <$> column hw c).
Proof.
  intros Hnd. induction hw as [|s hw IH]; intros Hcover.
  - unfold annual_count. csimpl. apply sum_list_zero_fmap.
  - rewrite count_by_label_cons, IH by (intros s' Hs'; apply Hcover; by right).
    unfold column. csimpl. f_equal.
    destruct (s.2 c) eqn:Hsc; simpl.
    + etrans; [|apply (sum_list_indicator (year s.1) ys Hnd);
                 apply Hcover; by left].
      f_equal. apply list_fmap_ext. intros _ y _.
      destruct (decide (year s.1 = y)) as [Hy | Hy].
      * by rewrite decide_True.
      * by rewrite decide_False by (intros [? _]; done).
    + etrans; [|apply (sum_list_zero_fmap ys)].
      f_equal. apply list_fmap_ext. intros _ y _.
      by rewrite decide_False by (intros [_ ?]; congruence).
Qed.

Lemma groupby_year_sum_counts (heatwave_days : DataArray bool) :
  groupby_year_sum heatwave_days
    = (λ y, (y, λ c, sum_list (Nat.b2n <$> column (in_year y heatwave_days) c)))
        <$> (groupby_year_sum heatwave_days).*1.
Proof.
  unfold groupby_year_sum. rewrite <-!list_fmap_compose.
  apply list_fmap_ext. done.
Qed.

Lemma groupby_year_sum_labels (heatwave_days : DataArray bool) :
  (groupby_year_sum heatwave_days).*1
    = merge_sort Z.le (remove_dups ((λ s, year s.1) <$> heatwave_days)).
Proof.
  unfold groupby_year_sum. rewrite <-list_fmap_compose. apply list_fmap_id.
Qed.

Lemma groupby_year_sum_NoDup (heatwave_days : DataArray bool) :
  NoDup (groupby_year_sum heatwave_days).*1.
Proof.
  rewrite groupby_year_sum_labels, merge_sort_Permutation.
  apply NoDup_remove_dups.
Qed.

(** On a record with at least one day, the annual counts of a cell add up
    to its number of flagged days in the whole record: grouping by year
    drops no day and counts none twice. *)
Theorem groupby_year_sum_conserves_days (heatwave_days : DataArray bool) c :
  heatwave_days ≠ [] →
  sum_list ((λ yc, yc.2 c) <$> groupby_year_sum heatwave_days)
    = sum_list (Nat.b2n <$> column heatwave_days c).
Proof.
  intros _.
  rewrite groupby_year_sum_counts, <-list_fmap_compose.
  rewrite <-(count_by_label heatwave_days c
               (groupby_year_sum heatwave_days).*1).
  - f_equal. apply list_fmap_ext. intros _ y _. simpl.
    apply sum_b2n_in_year.
  - apply groupby_year_sum_NoDup.
  - intros s Hs. apply groupby_year_sum_years. by exists s.
Qed.

Lemma groupby_year_sum_conserves_days_witness :
  sum_list ((λ yc, yc.2 (0, 0)) <$> groupby_year_sum heatwave_ex) = 2.
Proof.
  etrans; [apply (groupby_year_sum_conserves_days heatwave_ex (0, 0));
            discriminate|].
  reflexivity.
Defined.

Lemma StronglySorted_lookup_rel {A : Type} (R : relation A) (l : list A)
    i j a b :
  StronglySorted R l → i < j → l !! i = Some a → l !! j = Some b → R a b.
Proof.
  intros Hs. revert i j. induction Hs as [|x l Hs IH Hall]; intros i j Hij Hi Hj.
  - by rewrite lookup_nil in Hi.
  - destruct j as [|j]; [lia|]. simpl in Hj. destruct i as [|i]; simpl in Hi.
    + injection Hi as ->. rewrite Forall_forall in Hall.
      apply Hall. by apply list_elem_of_lookup_2 in Hj.
    + apply (IH i j); [lia | done | done].
Qed.

Lemma aggregate_years g (heatwave_days : DataArray bool)
    (region_masks : list (string * (Cell → bool))) years regional :
  aggregate_annual_per_region g heatwave_days region_masks
    = (years, regional) →
  years = merge_sort Z.le (remove_dups ((λ s, year s.1) <$> heatwave_days)).
Proof.
  unfold aggregate_annual_per_region. intros [= <- _].
  apply groupby_year_sum_labels.
Qed.

(** The years come out in strictly ascending order. *)
Theorem aggregate_annual_per_region_years_ascending g
    (heatwave_days : DataArray bool)
    (region_masks : list (string * (Cell → bool))) years regional i j yi yj :
  aggregate_annual_per_region g heatwave_days region_masks
    = (years, regional) →
  i < j → years !! i = Some yi → years !! j = Some yj → (yi < yj)%Z.
Proof.
  intros Hagg Hij Hi Hj. apply aggregate_years in Hagg.
  assert (Hsorted : StronglySorted Z.le years).
  { rewrite Hagg. apply (StronglySorted_merge_sort Z.le). }
  assert (Hnd : NoDup years).
  { rewrite Hagg, merge_sort_Permutation. apply NoDup_remove_dups. }
  pose proof (StronglySorted_lookup_rel Z.le years i j yi yj
                Hsorted Hij Hi Hj) as Hle.
  assert (yi ≠ yj).
  { intros ->. pose proof (NoDup_lookup years i j yj Hnd Hi Hj). lia. }
  lia.
Qed.

Lemma aggregate_annual_per_region_years_ascending_witness :
  (2000 < 2001)%Z.
Proof.
  apply (aggregate_annual_per_region_years_ascending grid_ex heatwave_ex
           region_masks_ex _ _ 0 1 2000 2001 eq_refl);
    [lia | reflexivity | reflexivity].
Defined.

(** ** Bounds on a mean *)

Lemma Qc_of_nat_pos n : n ≠ 0 → (0 < Qc_of_nat n)%Qc.
Proof.
  intros Hn. unfold Qc_of_nat. rewrite <-Z2Qc_inj_0.
  apply (proj1 (Z2Qc_inj_lt _ _)). lia.
Qed.

Lemma Qc_mean_times_count (xs : list Qc) :
  xs ≠ [] →
  (Qc_sum xs / Qc_of_nat (length xs) * Qc_of_nat (length xs))%Qc = Qc_sum xs.
Proof.
  intros Hne. rewrite Qcmult_comm. apply Qcmult_div_r.
  apply Qc_of_nat_nonzero. by destruct xs.
Qed.

Lemma Qc_sum_bounds (xs : list Qc) (lo hi : Qc) :
  Forall (λ x, lo ≤ x ∧ x ≤ hi)%Qc xs →
  (lo * Qc_of_nat (length xs) ≤ Qc_sum xs)%Qc ∧
  (Qc_sum xs ≤ hi * Qc_of_nat (length xs))%Qc.
Proof.
  induction 1 as [|x xs [Hlo Hhi] _ [IHlo IHhi]].
  - change (Qc_of_nat (length (@nil Qc))) with (Qc_of_Z 0).
    rewrite Z2Qc_inj_0, !Qcmult_0_r. split; apply Qcle_refl.
  - change (Qc_sum (x :: xs)) with (x + Qc_sum xs)%Qc.
    change (length (x :: xs)) with (S (length xs)). rewrite Qc_of_nat_S.
    rewrite !Qcmult_plus_distr_r, !Qcmult_1_r.
    rewrite !(Qcplus_comm _ lo), !(Qcplus_comm _ hi).
    split; by apply Qcplus_le_compat.
Qed.

Lemma Qc_mean_bounds (xs : list Qc) (lo hi : Qc) :
  xs ≠ [] →
  Forall (λ x, lo ≤ x ∧ x ≤ hi)%Qc xs →
  (lo ≤ Qc_sum xs / Qc_of_nat (length xs))%Qc ∧
  (Qc_sum xs / Qc_of_nat (length xs) ≤ hi)%Qc.
Proof.
  intros Hne Hall. destruct (Qc_sum_bounds xs lo hi Hall) as [Hlo Hhi].
  assert (Hpos : (0 < Qc_of_nat (length xs))%Qc).
  { apply Qc_of_nat_pos. by destruct xs. }
  rewrite <-(Qc_mean_times_count xs Hne) in Hlo, Hhi.
  split; by apply (Qcmult_lt_0_le_reg_r _ _ (Qc_of_nat (length xs))).
Qed.

(** One entry of the output, in terms of the inputs. *)
Lemma aggregate_entry g (heatwave_days : DataArray bool)
    (region_masks : list (string * (Cell → bool)))
    years regional r region series k y :
  aggregate_annual_per_region g heatwave_days region_masks
    = (years, regional) →
  regional !! r = Some (region, series) →
  years !! k = Some y →
  ∃ mask2d,
    region_masks !! r = Some (region, mask2d) ∧
    series !! k =
      Some (nanmean
              (where2d (λ c, sum_list (Nat.b2n <$>
                               column (in_year y heatwave_days) c)) mask2d
                 <$> cells g)).
Proof.
  unfold aggregate_annual_per_region. intros [= <- <-] Hr Hk.
  rewrite list_lookup_fmap in Hr.
  destruct (region_masks !! r) as [[region' mask2d]|]; [|done].
  simpl in Hr. injection Hr as <- <-.
  exists mask2d. split; [done|].
  rewrite list_lookup_fmap in Hk. rewrite !list_lookup_fmap.
  destruct (groupby_year_sum heatwave_days !! k) as [[y' counts]|] eqn:Hyc;
    [|done].
  simpl in Hk. injection Hk as ->. simpl.
  unfold groupby_year_sum in Hyc. rewrite list_lookup_fmap in Hyc.
  destruct (merge_sort Z.le _ !! k) as [y0|]; [|done].
  simpl in Hyc. by injection Hyc as -> <-.
Qed.

(** A regional value that is present lies between zero and the number of
    days the record holds for that year. *)
Theorem aggregate_annual_per_region_bounds g (heatwave_days : DataArray bool)
    (region_masks : list (string * (Cell → bool)))
    years regional r region series k y v :
  aggregate_annual_per_region g heatwave_days region_masks
    = (years, regional) →
  regional !! r = Some (region, series) →
  years !! k = Some y →
  series !! k = Some (Some v) →
  (0 ≤ v)%Qc ∧ (v ≤ Qc_of_nat (length (in_year y heatwave_days)))%Qc.
Proof.
  intros Hagg Hr Hk Hv.
  destruct (aggregate_entry _ _ _ _ _ _ _ _ _ _ Hagg Hr Hk)
    as (mask2d & _ & Hentry).
  rewrite Hentry in Hv. injection Hv as Hv.
  destruct (nanmean_where2d g
              (λ c, sum_list (Nat.b2n <$> column (in_year y heatwave_days) c))
              mask2d) as [Hnone Hsome].
  destruct (decide (selected_cells g mask2d = [])) as [Hsel | Hsel].
  { rewrite (Hnone Hsel) in Hv. done. }
  rewrite (Hsome Hsel) in Hv. injection Hv as <-.
  rewrite <-(length_fmap (λ c, Qc_of_nat
               (sum_list (Nat.b2n <$> column (in_year y heatwave_days) c)))).
  apply Qc_mean_bounds.
  - by destruct (selected_cells g mask2d).
  - apply Forall_fmap, Forall_forall. intros c _. simpl. split.
    + unfold Qc_of_nat. rewrite <-Z2Qc_inj_0.
      apply (proj1 (Z2Qc_inj_le _ _)). lia.
    + apply Qc_of_nat_le.
      rewrite <-(column_length (in_year y heatwave_days) c).
      apply sum_b2n_le.
Qed.

Lemma aggregate_annual_per_region_bounds_witness :
  ∃ years regional series v,
    aggregate_annual_per_region grid_ex heatwave_ex region_masks_ex
      = (years, regional) ∧
    regional !! 1 = Some ("US48", series) ∧
    series !! 0 = Some (Some v) ∧
    (0 ≤ v)%Qc ∧ (v ≤ Qc_of_nat 2)%Qc.
Proof.
  eexists _, _, _, _. split; [reflexivity|]. split; [reflexivity|].
  split; [reflexivity|].
  apply (aggregate_annual_per_region_bounds grid_ex heatwave_ex
           region_masks_ex _ _ 1 "US48" _ 0 2000%Z _ eq_refl eq_refl eq_refl
           eq_refl).
Defined.

(** ** West, Central-East and US48 *)

Lemma Qc_sum_cons (x : Qc) (xs : list Qc) :
  Qc_sum (x :: xs) = (x + Qc_sum xs)%Qc.
Proof. reflexivity. Qed.

Lemma Qc_sum_partition {A : Type} (f : A → Qc) (u w e : A → bool)
    (cs : list A) :
  (∀ c, u c = w c || e c) → (∀ c, w c && e c = false) →
  Qc_sum (f <$> filter (λ c, u c = true) cs)
    = (Qc_sum (f <$> filter (λ c, w c = true) cs)
       + Qc_sum (f <$> filter (λ c, e c = true) cs))%Qc ∧
  length (filter (λ c, u c = true) cs)
    = length (filter (λ c, w c = true) cs)
      + length (filter (λ c, e c = true) cs).
Proof.
  intros Hu Hdisj. induction cs as [|c cs [IHs IHl]].
  - split; [|done]. change (0 = 0 + 0)%Qc. ring.
  - rewrite !filter_cons. specialize (Hu c). specialize (Hdisj c).
    destruct (w c) eqn:Hw, (e c) eqn:He; simpl in Hu, Hdisj; try done.
    + rewrite (decide_True (P := u c = true)) by done.
      rewrite (decide_True (P := true = true)) by done.
      rewrite (decide_False (P := false = true)) by done.
      rewrite !fmap_cons, !Qc_sum_cons, IHs. split; [ring | simpl; lia].
    + rewrite (decide_True (P := u c = true)) by done.
      rewrite (decide_True (P := true = true)) by done.
      rewrite (decide_False (P := false = true)) by done.
      rewrite !fmap_cons, !Qc_sum_cons, IHs. split; [ring | simpl; lia].
    + rewrite (decide_False (P := u c = true)) by congruence.
      rewrite (decide_False (P := false = true)) by done.
      by split.
Qed.

Lemma weighted_nanmean g (counts : Cell → nat) (mask2d : Cell → bool) :
  weighted_mean (nanmean (where2d counts mask2d <$> cells g))
    (length (selected_cells g mask2d))
  = Qc_sum ((λ c, Qc_of_nat (counts c)) <$> selected_cells g mask2d).
Proof.
  destruct (nanmean_where2d g counts mask2d) as [Hnone Hsome].
  destruct (decide (selected_cells g mask2d = [])) as [Hsel | Hsel].
  - rewrite (Hnone Hsel), Hsel. done.
  - rewrite (Hsome Hsel). simpl.
    rewrite <-(length_fmap (λ c, Qc_of_nat (counts c))).
    apply Qc_mean_times_count. by destruct (selected_cells g mask2d).
Qed.

(** For region "us", in every year the US48 mean weighted by the number of
    US48 cells is the sum of the West and Central-East means weighted by
    their numbers of cells, and the US48 cells are as many as the West and
    Central-East cells together. *)
Theorem us48_combines_west_and_central_east g (temp_data : DataArray float)
    (heatwave_days : DataArray bool) masks years regional :
  heatwave_days ≠ [] →
  build_region_masks g temp_data "us" = inr masks →
  aggregate_annual_per_region g heatwave_days masks = (years, regional) →
  ∃ west_mask ce_mask us48_mask west central_east us48,
    masks = [("West", west_mask); ("Central-East", ce_mask);
             ("US48", us48_mask)] ∧
    regional = [("West", west); ("Central-East", central_east);
                ("US48", us48)] ∧
    length (selected_cells g us48_mask)
      = length (selected_cells g west_mask)
        + length (selected_cells g ce_mask) ∧
    ∀ k xw xe xu,
      west !! k = Some xw → central_east !! k = Some xe →
      us48 !! k = Some xu →
      weighted_mean xu (length (selected_cells g us48_mask))
        = (weighted_mean xw (length (selected_cells g west_mask))
           + weighted_mean xe (length (selected_cells g ce_mask)))%Qc.
Proof.
  intros _ (s0 & rest & -> & ->)%build_region_masks_us.
  unfold aggregate_annual_per_region. intros [= <- <-].
  eexists _, _, _, _, _, _. split; [done|]. split; [done|].
  set (w := λ c : Cell, bool_decide (longitude g c.2 < Qc_of_Z (-105))%Qc
                        && negb (isnan (s0.2 c))).
  set (e := λ c : Cell, bool_decide (Qc_of_Z (-105) ≤ longitude g c.2)%Qc
                        && negb (isnan (s0.2 c))).
  set (u := λ c : Cell, true && negb (isnan (s0.2 c))).
  assert (Hu : ∀ c, u c = w c || e c).
  { intros c. unfold u, w, e.
    pose proof (Qclt_nge (longitude g c.2) (Qc_of_Z (-105))) as Hnge.
    repeat case_bool_decide; destruct (isnan (s0.2 c)); simpl; tauto. }
  assert (Hdisj : ∀ c, w c && e c = false).
  { intros c. unfold w, e.
    pose proof (Qclt_nge (longitude g c.2) (Qc_of_Z (-105))) as Hnge.
    repeat case_bool_decide; destruct (isnan (s0.2 c)); simpl; tauto. }
  split.
  { apply (Qc_sum_partition (λ _, 0%Qc) u w e (cells g) Hu Hdisj). }
  intros k xw xe xu. simpl. rewrite !list_lookup_fmap.
  destruct (groupby_year_sum heatwave_days !! k) as [[y counts]|]; [|done].
  simpl. intros [= <-] [= <-] [= <-].
  rewrite !weighted_nanmean.
  apply (Qc_sum_partition (λ c, Qc_of_nat (counts c)) u w e (cells g) Hu Hdisj).
Qed.

Lemma us48_combines_west_and_central_east_witness :
  ∃ masks years regional,
    build_region_masks grid_ex may_sep_ex "us" = inr masks ∧
    aggregate_annual_per_region grid_ex heatwave_ex masks
      = (years, regional) ∧
    length regional = 3.
Proof.
  eexists _, _, _. split; [reflexivity|]. split; [reflexivity|].
  destruct (us48_combines_west_and_central_east grid_ex may_sep_ex
              heatwave_ex _ _ _ ltac:(discriminate) eq_refl eq_refl)
    as (wm & cm & um & w & ce & u & _ & Hreg & _).
  by rewrite Hreg.
Defined.

(** * Further properties of the region masks *)

(** [build_region_masks] fails in two ways only, and the empty time axis is
    met first: an index error when the field has no time step, whatever the
    region; otherwise an invalid-argument error when the region is neither
    "us" nor "nh". *)
Theorem build_region_masks_errors g (temp_data : DataArray float) region e :
  build_region_masks g temp_data region = inl e ↔
  (temp_data = [] ∧ e = IndexError) ∨
  (temp_data ≠ [] ∧ region ≠ "us" ∧ region ≠ "nh" ∧
   e = ValueError "Unknown region. Use 'us' or 'nh'.").
Proof.
  unfold build_region_masks. destruct temp_data as [|s0 rest]; simpl.
  - split.
    + intros [= <-]. by left.
    + intros [[_ ->] | [? _]]; done.
  - repeat case_decide.
    + split; [done | intros [[? _] | (_ & ? & _)]; done].
    + split; [done | intros [[? _] | (_ & _ & ? & _)]; done].
    + split.
      * intros [= <-]. by right.
      * intros [[? _] | (_ & _ & _ & ->)]; done.
Qed.

(** On one field, the US48 mask of region "us" and the NH mask of region
    "nh" are the same mask: every cell whose first time step is present. *)
Theorem us48_mask_is_nh_mask g (temp_data : DataArray float) us nh :
  build_region_masks g temp_data "us" = inr us →
  build_region_masks g temp_data "nh" = inr nh →
  ∃ s0 us48_mask nh_mask,
    temp_data !! 0 = Some s0 ∧
    us !! 2 = Some ("US48", us48_mask) ∧
    nh = [("NH", nh_mask)] ∧
    ∀ c, us48_mask c = nh_mask c ∧ (nh_mask c = true ↔ s0.2 c ≠ None).
Proof.
  destruct temp_data as [|s0 rest]; [done|].
  intros [[_ ->] | [[=] _]]%build_region_masks_cons
         [[[=] _] | [_ ->]]%build_region_masks_cons.
  eexists s0, _, _. split; [done|]. split; [done|]. split; [done|].
  intros c. simpl. split; [done|]. apply isnan_false.
Qed.

Lemma us48_mask_is_nh_mask_witness :
  ∃ nh_mask, build_region_masks grid_ex may_sep_ex "nh" = inr [("NH", nh_mask)].
Proof.
  destruct (us48_mask_is_nh_mask grid_ex may_sep_ex _ _ eq_refl eq_refl)
    as (s0 & um & nm & _ & _ & Hnh & _).
  exists nm. rewrite <-Hnh. reflexivity.
Defined.

(** * Further properties of the trailing average *)

Lemma window_at_one {A : Type} (x : list A) i a :
  x !! i = Some a → window_at 1 i x = [a].
Proof.
  intros Hi. unfold window_at. rewrite (take_S_r x i a Hi).
  replace (S i - 1) with (length (take i x)).
  - by rewrite drop_app_length.
  - rewrite length_take. apply lookup_lt_Some in Hi. lia.
Qed.

Lemma nanmean_singleton (x : float) : nanmean [x] = x.
Proof.
  destruct x as [v|]; [|done]. unfold nanmean. simpl. f_equal.
  change (Qc_sum [v]) with (v + 0)%Qc.
  change (Qc_of_nat 1) with (Qc_of_Z 1). rewrite Z2Qc_inj_1.
  unfold Qcdiv. rewrite Qcplus_0_r.
  rewrite <-(Qcmult_1_l (/ 1)), Qcmult_inv_r by done. apply Qcmult_1_r.
Qed.

(** A window of one year leaves the series as it is, missing entries
    included. *)
Theorem trailing_average_window_one (values : list float) :
  trailing_average values 1 = inr values.
Proof.
  destruct (trailing_average_lookup values 1) as (out & -> & Hlen & Hout);
    [lia|].
  f_equal. apply list_eq. intros i.
  destruct (values !! i) as [x|] eqn:Hx.
  - rewrite Hout by (by apply lookup_lt_Some in Hx).
    by rewrite (window_at_one values i x Hx), nanmean_singleton.
  - apply lookup_ge_None. rewrite Hlen. by apply lookup_ge_None.
Qed.

Lemma window_at_elem {A : Type} w i (x : list A) a :
  a ∈ window_at w i x → a ∈ x.
Proof.
  intros [k Hk]%list_elem_of_lookup_1. rewrite window_at_lookup in Hk.
  case_decide; [|done]. by apply list_elem_of_lookup_2 in Hk.
Qed.

(** The trailing average stays within the range of the valid entries of
    the series. *)
Theorem trailing_average_bounded (values : list float) W out (lo hi : Qc)
    i v :
  trailing_average values W = inr out →
  (∀ x, Some x ∈ values → (lo ≤ x)%Qc ∧ (x ≤ hi)%Qc) →
  out !! i = Some (Some v) →
  (lo ≤ v)%Qc ∧ (v ≤ hi)%Qc.
Proof.
  intros Hout Hrange Hv.
  assert (HW : 1 ≤ W).
  { unfold trailing_average, rolling_mean in Hout.
    case_decide; [done | lia]. }
  destruct (trailing_average_lookup values W HW) as (out' & Heq & Hlen & Hlk).
  rewrite Hout in Heq. injection Heq as <-.
  rewrite Hlk in Hv by (apply lookup_lt_Some in Hv; lia).
  injection Hv as Hv. unfold nanmean in Hv.
  case_decide as Hnil; [done|]. injection Hv as <-.
  apply Qc_mean_bounds.
  - by destruct (dropna (window_at W i values)).
  - apply Forall_forall. intros x Hx. apply Hrange.
    unfold dropna in Hx. apply list_elem_of_omap in Hx as (ox & Hox & Hid).
    simpl in Hid. subst ox. by apply window_at_elem in Hox.
Qed.

Lemma trailing_average_bounded_witness :
  ∃ out v,
    trailing_average [qz 1; None; qz 3] 2 = inr out ∧
    out !! 2 = Some (Some v) ∧ (Qc_of_Z 1 ≤ v)%Qc ∧ (v ≤ Qc_of_Z 3)%Qc.
Proof.
  eexists _, _. split; [reflexivity|]. split; [reflexivity|].
  apply (trailing_average_bounded [qz 1; None; qz 3] 2 _ _ _ 2 _ eq_refl);
    [|reflexivity].
  intros x Hx. rewrite !elem_of_cons, elem_of_nil in Hx.
  destruct Hx as [[= ->] | [[=] | [[= ->] | []]]]; split; by vm_compute.
Defined.

(** * The data handed to the plot *)

Lemma trailing_average_eq (values : list float) W :
  1 ≤ W →
  trailing_average values W
    = inr (imap (λ i _, nanmean (window_at W i values)) values).
Proof.
  intros HW. unfold trailing_average, rolling_mean.
  case_decide; [lia|]. f_equal. apply imap_ext. intros i x _. simpl.
  unfold nanmean.
  destruct (dropna (window_at W i values)) as [|q valid];
    repeat case_decide; simpl in *; try done; lia.
Qed.

Lemma map_values_ok {A B : Type} (f : A → exn + B) (h : A → B)
    (d : list (string * A)) :
  (∀ k v, (k, v) ∈ d → f v = inr (h v)) →
  map_values f d = inr ((λ kv, (kv.1, h kv.2)) <$> d).
Proof.
  induction d as [|[k v] d IH]; intros Hok; [done|].
  simpl. rewrite (Hok k v) by (by left).
  rewrite IH by (intros k' v' Hin; apply (Hok k'); by right). done.
Qed.

Lemma boolean_index_drop {A : Type} (m : nat) (v : list A) :
  m ≤ length v →
  boolean_index (replicate m false ++ replicate (length v - m) true) v
    = inr (drop m v).
Proof.
  intros Hm. unfold boolean_index.
  rewrite decide_True by (rewrite length_app, !length_replicate; lia).
  f_equal. revert v Hm. induction m as [|m IH]; intros v Hm.
  - simpl. rewrite Nat.sub_0_r. clear Hm.
    induction v as [|a v IHv]; [done|].
    cbn [length replicate zip_with]. rewrite filter_cons_True by done.
    csimpl. by rewrite IHv.
  - destruct v as [|a v]; simpl in Hm; [lia|].
    cbn [length replicate zip_with app Nat.sub].
    rewrite filter_cons_False by (simpl; done). apply IH. lia.
Qed.

Lemma boolean_index_none {A : Type} (v : list A) :
  boolean_index (replicate (length v) false) v = inr [].
Proof.
  pose proof (boolean_index_drop (length v) v (le_n _)) as H.
  rewrite Nat.sub_diag in H. simpl in H.
  by rewrite app_nil_r, drop_all in H.
Qed.

Lemma years_mask (y0 : Z) (n m : nat) :
  (y0 + Z.of_nat m = 1914)%Z → m ≤ n →
  (λ y, bool_decide (1914 ≤ y)%Z) <$> consecutive_years y0 n
    = replicate m false ++ replicate (n - m) true.
Proof.
  intros Hy0 Hm. unfold consecutive_years. rewrite <-list_fmap_compose.
  apply list_eq. intros i. rewrite list_lookup_fmap.
  destruct (decide (i < n)) as [Hi | Hi].
  - rewrite lookup_seq_lt by done. simpl.
    destruct (decide (i < m)) as [Him | Him].
    + rewrite lookup_app_l by (by rewrite length_replicate).
      rewrite lookup_replicate_2 by done.
      by rewrite bool_decide_eq_false_2 by lia.
    + rewrite lookup_app_r by (rewrite length_replicate; lia).
      rewrite length_replicate, lookup_replicate_2 by lia.
      by rewrite bool_decide_eq_true_2 by lia.
  - rewrite lookup_seq_ge by lia. simpl. symmetry.
    apply lookup_ge_None. rewrite length_app, !length_replicate. lia.
Qed.

Lemma consecutive_years_length y0 n : length (consecutive_years y0 n) = n.
Proof. unfold consecutive_years. by rewrite length_fmap, length_seq. Qed.

(** When the annual record starts in or before 1900 and runs over
    consecutive years past 1914, the plot holds the years from 1914 on, and
    every plotted value is the mean of the valid entries of a full window
    of 15 consecutive annual values: none rests on a partial window. *)
Theorem plot_figure_full_windows (y0 : Z) (n m : nat)
    (regional_series : list (string * list float)) :
  (y0 ≤ 1900)%Z → (y0 + Z.of_nat m = 1914)%Z → m < n →
  (∀ k v, (k, v) ∈ regional_series → length v = n) →
  ∃ smooth,
    plot_figure (consecutive_years y0 n) regional_series
      = inr (consecutive_years 1914 (n - m), smooth) ∧
    length smooth = length regional_series ∧
    ∀ r k v, regional_series !! r = Some (k, v) →
      ∃ sv,
        smooth !! r = Some (k, sv) ∧
        length sv = n - m ∧
        ∀ p, p < n - m →
          sv !! p = Some (nanmean (take 15 (drop (m - 14 + p) v))).
Proof.
  intros Hy0 Hm Hmn Hlen.
  assert (Hm14 : 14 ≤ m) by lia.
  unfold plot_figure.
  rewrite (map_values_ok _ (λ v, imap (λ i _, nanmean (window_at 15 i v)) v))
    by (intros; apply trailing_average_eq; lia).
  rewrite (years_mask y0 n m Hm) by lia.
  assert (Hyears : boolean_index (replicate m false ++ replicate (n - m) true)
                     (consecutive_years y0 n)
                   = inr (consecutive_years 1914 (n - m))).
  { rewrite <-(consecutive_years_length y0 n) at 1.
    rewrite boolean_index_drop by (rewrite consecutive_years_length; lia).
    f_equal. unfold consecutive_years. rewrite <-fmap_drop.
    apply list_eq. intros i. rewrite !list_lookup_fmap, lookup_drop.
    destruct (decide (i < n - m)) as [Hi | Hi].
    - rewrite !lookup_seq_lt by lia. simpl. f_equal. lia.
    - by rewrite !lookup_seq_ge by lia. }
  rewrite Hyears.
  rewrite (map_values_ok _ (drop m)).
  2:{ intros k sv [[k' v] [[= -> ->] Hin]]%list_elem_of_fmap. simpl.
      rewrite <-(Hlen k' v Hin) at 1.
      rewrite <-(length_imap (λ i _, nanmean (window_at 15 i v)) v) at 1.
      apply boolean_index_drop. rewrite length_imap, (Hlen k' v Hin). lia. }
  destruct (n - m) as [|d] eqn:Hd; [lia|].
  change (consecutive_years 1914 (S d))
    with ((1914 + 0)%Z :: ((λ i, (1914 + Z.of_nat i)%Z) <$> seq 1 d)).
  eexists. split; [done|]. split; [by rewrite !length_fmap|].
  intros r k v Hr. rewrite !list_lookup_fmap, Hr. simpl.
  assert (Hv : length v = n).
  { apply (Hlen k). by apply list_elem_of_lookup_2 in Hr. }
  eexists. split; [done|]. split.
  { rewrite length_drop, length_imap. lia. }
  intros p Hp. rewrite lookup_drop, list_lookup_imap.
  destruct (lookup_lt_is_Some_2 v (m + p) ltac:(lia)) as [x ->]. simpl.
  do 2 f_equal. unfold window_at.
  replace (S (m + p) - 15) with (m - 14 + p) by lia.
  replace (S (m + p)) with (m - 14 + p + 15) by lia.
  symmetry. apply take_drop_commute.
Qed.

Lemma plot_figure_full_windows_witness :
  ∃ smooth,
    plot_figure (consecutive_years 1900 16) [("US48", replicate 16 (qz 4))]
      = inr (consecutive_years 1914 2, smooth) ∧
    length smooth = 1.
Proof.
  destruct (plot_figure_full_windows 1900 16 14
              [("US48", replicate 16 (qz 4))]) as (smooth & Heq & Hlen & _).
  - lia.
  - lia.
  - lia.
  - intros k v Hin. apply list_elem_of_singleton in Hin.
    injection Hin as -> ->. reflexivity.
  - exists smooth. split; [exact Heq | exact Hlen].
Defined.

(** When no year of the record reaches 1914, [plot_figure] raises: the axis
    limits are taken from an empty array of years. *)
Theorem plot_figure_no_year_from_1914 (years : list Z)
    (regional_series : list (string * list float)) :
  (∀ y, y ∈ years → (y < 1914)%Z) →
  (∀ k v, (k, v) ∈ regional_series → length v = length years) →
  plot_figure years regional_series
    = inl (ValueError "zero-size array to reduction operation").
Proof.
  intros Hold Hlen. unfold plot_figure.
  rewrite (map_values_ok _ (λ v, imap (λ i _, nanmean (window_at 15 i v)) v))
    by (intros; apply trailing_average_eq; lia).
  assert (Hmask : (λ y, bool_decide (1914 ≤ y)%Z) <$> years
                  = replicate (length years) false).
  { apply list_eq. intros i. rewrite list_lookup_fmap.
    destruct (years !! i) as [y|] eqn:Hy; simpl.
    - rewrite lookup_replicate_2 by (by apply lookup_lt_Some in Hy).
      rewrite bool_decide_eq_false_2; [done|].
      apply list_elem_of_lookup_2, Hold in Hy. lia.
    - symmetry. apply lookup_ge_None. rewrite length_replicate.
      by apply lookup_ge_None. }
  rewrite Hmask, boolean_index_none.
  rewrite (map_values_ok _ (λ _, [])); [done|].
  intros k sv [[k' v] [[= -> ->] Hin]]%list_elem_of_fmap. simpl.
  rewrite <-(Hlen k' v Hin).
  rewrite <-(length_imap (λ i _, nanmean (window_at 15 i v)) v).
  apply boolean_index_none.
Qed.

Lemma plot_figure_no_year_from_1914_witness :
  plot_figure [1900; 1901]%Z [("US48", [qz 1; qz 2])]
    = inl (ValueError "zero-size array to reduction operation").
Proof.
  apply plot_figure_no_year_from_1914.
  - intros y Hy. rewrite !elem_of_cons, elem_of_nil in Hy.
    destruct Hy as [-> | [-> | []]]; lia.
  - intros k v Hin. apply list_elem_of_singleton in Hin.
    injection Hin as -> ->. reflexivity.
Defined.

(** * Quick subset *)

(** With a positive spatial step, [quick_subset] fails exactly when no time
    step of the record falls in the year range (the land count selects the
    first time step of an empty subset); otherwise it returns the time steps
    of the range, in order, each on the subsampled grid. *)
Theorem quick_subset_result (temp_data : DataArray float)
    (start_year end_year : Z) (spatial_step : nat) :
  1 ≤ spatial_step →
  (quick_subset temp_data start_year end_year spatial_step = inl IndexError ↔
     ∀ s, s ∈ temp_data →
          ¬ ((start_year ≤ year s.1)%Z ∧ (year s.1 ≤ end_year)%Z)) ∧
  (∀ e, quick_subset temp_data start_year end_year spatial_step = inl e →
        e = IndexError) ∧
  (∀ sub,
     quick_subset temp_data start_year end_year spatial_step = inr sub →
     length sub
       = length (filter (λ s, (start_year ≤ year s.1)%Z ∧
                              (year s.1 ≤ end_year)%Z) temp_data) ∧
     ∀ t s', sub !! t = Some s' →
       ∃ s, filter (λ s, (start_year ≤ year s.1)%Z ∧
                         (year s.1 ≤ end_year)%Z) temp_data !! t = Some s ∧
            s'.1 = s.1 ∧
            ∀ i j, s'.2 (i, j) = s.2 (i * spatial_step, j * spatial_step)).
Proof.
  intros Hstep. unfold quick_subset. case_decide; [lia|].
  set (sel := filter _ temp_data).
  assert (Hsel : sel = [] ↔
            ∀ s, s ∈ temp_data →
                 ¬ ((start_year ≤ year s.1)%Z ∧ (year s.1 ≤ end_year)%Z)).
  { unfold sel. split.
    - intros Hnil s Hs Hin.
      assert (s ∈ filter (λ s, (start_year ≤ year s.1)%Z ∧
                               (year s.1 ≤ end_year)%Z) temp_data)
        as Hf by (by apply list_elem_of_filter).
      rewrite Hnil in Hf. by apply elem_of_nil in Hf.
    - intros Hnone. apply elem_of_nil_inv. intros s.
      intros [HP Hs]%list_elem_of_filter. by apply (Hnone s). }
  rewrite <-Hsel. destruct sel as [|s0 sel']; csimpl.
  - split; [done|]. split; [by intros e [= <-] | done].
  - split; [done|]. split; [done|].
    intros sub [= <-]. split; [simpl; by rewrite length_fmap|].
    intros [|t] s' Hs'.
    + injection Hs' as <-. by exists s0.
    + change (((λ s, (s.1, isel_step spatial_step s.2)) <$> sel') !! t
              = Some s') in Hs'.
      rewrite list_lookup_fmap in Hs'.
      destruct (sel' !! t) as [s|] eqn:Hs; [|done].
      injection Hs' as <-. by exists s.
Qed.

Lemma quick_subset_result_witness :
  quick_subset may_sep_ex 1990 1999 6 = inl IndexError.
Proof.
  apply (proj1 (quick_subset_result may_sep_ex 1990 1999 6 ltac:(lia))).
  intros s Hs [Hlo Hhi].
  unfold may_sep_ex in Hs. apply list_elem_of_fmap in Hs as (i & -> & _).
  simpl in Hhi. lia.
Defined.

(** * Further properties of the thresholds *)

Lemma exceedance_flag_true (may_sep : DataArray float)
    (thresholds : Thresholds) t c :
  flag (exceedance may_sep thresholds) t c = true →
  ∃ s temp thr,
    may_sep !! t = Some s ∧ s.2 c = Some temp ∧
    sel_dayofyear thresholds (dayofyear s.1) c = Some thr ∧ (thr < temp)%Qc.
Proof.
  unfold flag, exceedance. rewrite list_lookup_fmap.
  destruct (may_sep !! t) as [s|]; simpl; [|done].
  unfold float_gt.
  destruct (s.2 c) as [temp|] eqn:Htemp; [|done].
  destruct (sel_dayofyear thresholds (dayofyear s.1) c) as [thr|] eqn:Hthr;
    [|done].
  intros Hlt%bool_decide_eq_true_1. by exists s, temp, thr.
Qed.

Lemma sel_dayofyear_absent (f : nat → Cell → float) (labels : list nat) d c :
  d ∉ labels → sel_dayofyear ((λ d, (d, f d)) <$> labels) d c = None.
Proof.
  unfold sel_dayofyear. induction labels as [|x l IH]; intros Hnotin; [done|].
  csimpl. rewrite decide_False by (intros ->; apply Hnotin; by left).
  assert (d ∉ l) as Hl by (intros ?; apply Hnotin; by right).
  specialize (IH Hl).
  destruct (list_find (λ e : nat * (Cell → float), e.1 = d)
              ((λ d, (d, f d)) <$> l)) as [[i e]|]; done.
Qed.

Lemma is_linear_quantile_between q obs r :
  is_linear_quantile q obs r →
  ∃ a b, a ∈ obs ∧ b ∈ obs ∧ (a ≤ r)%Qc ∧ (r ≤ b)%Qc.
Proof.
  intros (sorted & lo & frac & a & b & Hs & Hp & _ & H0 & H1 & Ha & Hb & ->).
  assert (Hab : (a ≤ b)%Qc).
  { pose proof (lookup_lt_Some _ _ _ Ha) as Hlo.
    rewrite (Permutation_length Hp) in Hlo.
    destruct (decide (lo = min (lo + 1) (length obs - 1))) as [Heq | Hne].
    - rewrite <-Heq, Ha in Hb. injection Hb as ->. apply Qcle_refl.
    - apply (StronglySorted_lookup_rel Qcle sorted lo
               (min (lo + 1) (length obs - 1)));
        [apply (Sorted_StronglySorted Qcle); exact Hs | lia | done | done]. }
  assert (Hba : (0 ≤ b - a)%Qc) by (by apply Qcle_minus_iff in Hab).
  exists a, b.
  split; [rewrite <-Hp; by apply list_elem_of_lookup_2 in Ha|].
  split; [rewrite <-Hp; by apply list_elem_of_lookup_2 in Hb|].
  split.
  - rewrite <-(Qcplus_0_r a) at 1. apply Qcplus_le_mono_l.
    by apply Qcmult_nonneg_nonneg.
  - replace b with (a + 1 * (b - a))%Qc at 2 by ring.
    apply Qcplus_le_mono_l. apply Qcmult_le_mono_nonneg_r; [done|].
    by apply Qclt_le_weak.
Qed.

Lemma thresholds_entry (may_sep : DataArray float) d c r :
  sel_dayofyear (compute_daily_90th_thresholds may_sep) d c = Some r →
  is_linear_quantile (Q2Qc (9 # 10)) (pooled_observations may_sep d c) r.
Proof.
  unfold compute_daily_90th_thresholds. intros Hsel.
  destruct (decide (d ∈ groupby_labels ((λ s, dayofyear s.1) <$> may_sep)))
    as [Hd | Hd].
  - rewrite (sel_dayofyear_labels
               (λ d c, nanquantile (Q2Qc (9 # 10))
                         (column (on_dayofyear d may_sep) c)) _ d Hd) in Hsel.
    destruct (nanquantile_spec (Q2Qc (9 # 10))
                (column (on_dayofyear d may_sep) c)) as [Hnone Hsome];
      [done | done |].
    rewrite dropna_column_on_dayofyear in Hnone, Hsome.
    destruct (decide (pooled_observations may_sep d c = [])) as [Hnil | Hne].
    + rewrite (Hnone Hnil) in Hsel. done.
    + destruct (Hsome Hne) as (r' & Hr' & Hq). rewrite Hr' in Hsel.
      by injection Hsel as <-.
  - rewrite (sel_dayofyear_absent
               (λ d c, nanquantile (Q2Qc (9 # 10))
                         (column (on_dayofyear d may_sep) c)) _ d c Hd)
      in Hsel. done.
Qed.

Lemma threshold_entry_between (may_sep : DataArray float) d c r :
  sel_dayofyear (compute_daily_90th_thresholds may_sep) d c = Some r →
  ∃ a b,
    a ∈ pooled_observations may_sep d c ∧
    b ∈ pooled_observations may_sep d c ∧
    (a ≤ r)%Qc ∧ (r ≤ b)%Qc.
Proof.
  intros Hsel. by apply is_linear_quantile_between with (Q2Qc (9 # 10)),
                        thresholds_entry.
Qed.

(** A threshold that is present lies between two of the cell's valid
    observations for that day-of-year: it is never above the largest nor
    below the smallest of them. *)
Theorem threshold_between_observations (may_sep : DataArray float) d c r :
  sel_dayofyear (compute_daily_90th_thresholds may_sep) d c = Some r →
  ∃ a b,
    a ∈ pooled_observations may_sep d c ∧
    b ∈ pooled_observations may_sep d c ∧
    (a ≤ r)%Qc ∧ (r ≤ b)%Qc.
Proof.
  apply threshold_entry_between.
Qed.

Lemma threshold_between_observations_witness :
  ∃ r a b,
    sel_dayofyear (compute_daily_90th_thresholds may_sep_q) 122 (0, 0) = Some r ∧
    a ∈ [Qc_of_Z 20; Qc_of_Z 30] ∧ b ∈ [Qc_of_Z 20; Qc_of_Z 30] ∧
    (a ≤ r)%Qc ∧ (r ≤ b)%Qc.
Proof.
  eexists. 
  destruct (threshold_between_observations may_sep_q 122 (0, 0) _ eq_refl)
    as (a & b & Ha & Hb & Hle).
  exists a, b. split; [reflexivity|]. split; [exact Ha|].
  split; [exact Hb | exact Hle].
Defined.

Lemma heatwave_flag_exceeds may_sep thresholds N heatwave t c :
  identify_heatwave_days may_sep thresholds N = inr heatwave →
  flag heatwave t c = true →
  flag (exceedance may_sep thresholds) t c = true.
Proof.
  intros Hid Hflag.
  assert (HN : 1 ≤ N).
  { unfold identify_heatwave_days in Hid. case_decide; [done | lia]. }
  destruct (identify_heatwave_days_column may_sep thresholds N c HN)
    as (heatwave' & Heq & _ & Hcol).
  rewrite Hid in Heq. injection Heq as <-.
  apply column_lookup_true in Hflag. rewrite Hcol in Hflag.
  apply heatwave_series_true in Hflag as (a & b & Ht & _ & _ & Hall); [|done].
  apply column_lookup_true. apply Hall. lia.
Qed.

Lemma pooled_observations_elem (may_sep : DataArray float) d c x :
  x ∈ pooled_observations may_sep d c ↔
  ∃ s, s ∈ may_sep ∧ dayofyear s.1 = d ∧ s.2 c = Some x.
Proof.
  unfold pooled_observations. rewrite list_elem_of_omap. split.
  - intros (s & Hs & Hx). exists s. split; [done|].
    by destruct (decide (dayofyear s.1 = d)).
  - intros (s & Hs & Hd & Hx). exists s. split; [done|].
    by rewrite decide_True.
Qed.

Lemma NoDup_fmap_inj_on {A B : Type} (f : A → B) (l : list A) x y :
  NoDup (f <$> l) → x ∈ l → y ∈ l → f x = f y → x = y.
Proof.
  intros Hnd [i Hi]%list_elem_of_lookup_1 [j Hj]%list_elem_of_lookup_1 Hf.
  assert (i = j) as ->.
  { apply (NoDup_lookup (f <$> l) i j (f x) Hnd).
    - by rewrite list_lookup_fmap, Hi.
    - by rewrite list_lookup_fmap, Hj, Hf. }
  congruence.
Qed.

(** When every day-of-year occurs once in a non-empty record (one season
    of data), each threshold is the day's own temperature, so no day is an
    exceedance day and no day is a heatwave day. *)
Theorem no_exceedance_when_days_occur_once (may_sep : DataArray float) t c :
  may_sep ≠ [] →
  NoDup ((λ s, dayofyear s.1) <$> may_sep) →
  flag (exceedance may_sep (compute_daily_90th_thresholds may_sep)) t c
    = false ∧
  ∀ N heatwave,
    identify_heatwave_days may_sep (compute_daily_90th_thresholds may_sep) N
      = inr heatwave →
    flag heatwave t c = false.
Proof.
  intros _ Hnd.
  assert (Hex : flag (exceedance may_sep
                        (compute_daily_90th_thresholds may_sep)) t c = false).
  { apply not_true_is_false. intros Hflag.
    apply exceedance_flag_true in Hflag
      as (s & temp & thr & Hs & Htemp & Hthr & Hlt).
    apply threshold_entry_between in Hthr as (a & b & Ha & _ & Hle & _).
    apply pooled_observations_elem in Ha as (s' & Hs' & Hd & Hx).
    assert (s' = s) as ->.
    { apply (NoDup_fmap_inj_on (λ s, dayofyear s.1) may_sep); try done.
      by apply list_elem_of_lookup_2 in Hs. }
    rewrite Htemp in Hx. injection Hx as <-.
    by apply (Qclt_not_le _ _ Hlt). }
  split; [done|]. intros N heatwave Hid.
  apply not_true_is_false. intros Hflag.
  apply (heatwave_flag_exceeds _ _ _ _ _ _ Hid) in Hflag. congruence.
Qed.

Lemma no_exceedance_when_days_occur_once_witness :
  flag (exceedance may_sep_ex (compute_daily_90th_thresholds may_sep_ex))
       3 (0, 0) = false.
Proof.
  apply (no_exceedance_when_days_occur_once may_sep_ex 3 (0, 0)).
  - discriminate.
  - apply (bool_decide_unpack _). vm_compute. exact I.
Defined.

(** * Ocean cells through the pipeline *)

Lemma where_mask_elem (a : DataArray float) (mask : Cell → bool) s' c :
  s' ∈ where_mask a mask → mask c = false → s'.2 c = None.
Proof.
  unfold where_mask. intros (s & -> & _)%list_elem_of_fmap Hm.
  simpl. by rewrite Hm.
Qed.

(** On a record with at least one May-September day, a cell that is not
    land at the first time step of the land mask has no threshold, no
    exceedance day and no heatwave day, whatever the thresholds handed to
    the detector and whatever the run length. *)
Theorem ocean_cells_have_no_heatwave_days (ds : Dataset) temp_land lm0 rest c :
  load_temperature_data ds = inr temp_land →
  ds !! "land_mask" = Some (lm0 :: rest) →
  select_may_to_september temp_land ≠ [] →
  ¬ is_land lm0.2 c →
  (∀ d, sel_dayofyear
          (compute_daily_90th_thresholds (select_may_to_september temp_land))
          d c = None) ∧
  ∀ thresholds N heatwave t,
    identify_heatwave_days (select_may_to_september temp_land) thresholds N
      = inr heatwave →
    flag (exceedance (select_may_to_september temp_land) thresholds) t c
      = false ∧
    flag heatwave t c = false.
Proof.
  intros Hload Hlm _ Hocean.
  assert (Hnan : ∀ s, s ∈ select_may_to_september temp_land → s.2 c = None).
  { intros s [_ Hs]%list_elem_of_filter.
    unfold load_temperature_data in Hload. rewrite Hlm in Hload.
    destruct (ds !! "temperature") as [temperature|]; [|done].
    simpl in Hload. injection Hload as <-.
    apply (where_mask_elem _ _ _ c) in Hs; [done|].
    apply not_true_is_false. by intros Hl%float_gt_zero_land. }
  split.
  - intros d.
    destruct (sel_dayofyear
                (compute_daily_90th_thresholds
                   (select_may_to_september temp_land)) d c) as [r|] eqn:Hr;
      [|done].
    apply threshold_entry_between in Hr as (a & _ & Ha & _).
    apply pooled_observations_elem in Ha as (s & Hs & _ & Hx).
    rewrite (Hnan s Hs) in Hx. done.
  - intros thresholds N heatwave t Hid.
    assert (Hex : flag (exceedance (select_may_to_september temp_land)
                          thresholds) t c = false).
    { apply not_true_is_false. intros Hflag.
      apply exceedance_flag_true in Hflag as (s & temp & _ & Hs & Htemp & _).
      apply list_elem_of_lookup_2 in Hs. rewrite (Hnan s Hs) in Htemp. done. }
    split; [done|]. apply not_true_is_false. intros Hflag.
    apply (heatwave_flag_exceeds _ _ _ _ _ _ Hid) in Hflag. congruence.
Qed.

Lemma ocean_cells_have_no_heatwave_days_witness :
  ∃ temp_land,
    load_temperature_data ds_ex = inr temp_land ∧
    sel_dayofyear
      (compute_daily_90th_thresholds (select_may_to_september temp_land))
      122 (0, 1) = None.
Proof.
  eexists. split; [reflexivity|].
  refine (proj1 (ocean_cells_have_no_heatwave_days ds_ex _ _ _ (0, 1)
                   eq_refl eq_refl ltac:(discriminate) _) 122).
  intros (v & Hv & Hpos). vm_compute in Hv. injection Hv as <-.
  by vm_compute in Hpos.
Defined.

(** * Six-year bins and days at or above a threshold *)



Lemma fahrenheit_to_celsius_mono (f1 f2 : Qc) :
  (f1 ≤ f2)%Qc → (fahrenheit_to_celsius f1 ≤ fahrenheit_to_celsius f2)%Qc.
Proof.
  intros Hle. unfold fahrenheit_to_celsius.
  apply Qcmult_le_mono_nonneg_r; [by vm_compute|].
  by apply Qcplus_le_mono_r.
Qed.

Lemma sum_b2n_in_bin (is_hot : DataArray bool) by_ a b c :
  sum_list (Nat.b2n <$> column (in_bin by_ a b is_hot) c)
    = length (filter (λ s, bin_start by_ a (year s.1) = b ∧ s.2 c = true)
                is_hot).
Proof.
  unfold in_bin, column.
  induction is_hot as [|s hw IH]; [done|].
  rewrite !filter_cons.
  destruct (decide (bin_start by_ a (year s.1) = b)) as [Hy | Hy].
  - csimpl. rewrite IH. destruct (s.2 c) eqn:Hsc.
    + rewrite decide_True by done. done.
    + rewrite decide_False by (intros [_ ?]; congruence). done.
  - rewrite decide_False by (intros [? _]; done). done.
Qed.

Lemma hot_days_counts (temperature : DataArray float) thr by_ a b c :
  sum_list (Nat.b2n <$>
     column (in_bin by_ a b
               ((λ s, (s.1, λ c, float_ge (s.2 c) (Some thr)))
                  <$> temperature)) c)
    = hot_days temperature thr by_ a b c.
Proof.
  rewrite sum_b2n_in_bin. unfold hot_days.
  induction temperature as [|s l IH]; [done|].
  rewrite fmap_cons, !filter_cons. simpl.
  destruct (decide (bin_start by_ a (year s.1) = b
                    ∧ float_ge (s.2 c) (Some thr) = true)); simpl;
    by rewrite IH.
Qed.

Lemma nanmean_all_present (xs : list Qc) :
  nanmean (Some <$> xs)
    = if decide (length xs = 0) then None
      else Some (Qc_sum xs / Qc_of_nat (length xs))%Qc.
Proof.
  unfold nanmean, dropna.
  assert (omap id (Some <$> xs) = xs) as ->; [|done].
  induction xs as [|x xs IH]; [done|]. csimpl. by rewrite IH.
Qed.

(** One entry of the series, in terms of the inputs. *)
Lemma compute_us48_series_entry g (ds : Dataset) temperature thr by_ a :
  ds !! "temperature" = Some temperature →
  ∃ series,
    compute_us48_series g ds thr by_ a = inr series ∧
    series.*1
      = merge_sort Z.le
          (remove_dups ((λ s, bin_start by_ a (year s.1)) <$> temperature)) ∧
    ∀ b x, (b, x) ∈ series →
      x = if decide (length (cells g) = 0) then None
          else Some (Qc_sum ((λ c, Qc_of_nat (hot_days temperature thr by_ a b c))
                               <$> cells g)
                     / Qc_of_nat (length (cells g)))%Qc.
Proof.
  intros Ht. unfold compute_us48_series. rewrite Ht.
  eexists. split; [done|]. split.
  - rewrite <-list_fmap_compose. etrans; [apply list_fmap_id|].
    do 2 f_equal. by rewrite <-list_fmap_compose.
  - intros b x (b' & [= -> ->] & _)%list_elem_of_fmap.
    set (counts := λ c : Cell,
           sum_list (Nat.b2n <$>
             column (in_bin by_ a b'
                       ((λ s, (s.1, λ c, float_ge (s.2 c) (Some thr)))
                          <$> temperature)) c)).
    change ((λ c : Cell, Some (Qc_of_nat (counts c))) <$> cells g)
      with ((Some ∘ (λ c : Cell, Qc_of_nat (counts c))) <$> cells g).
    rewrite (list_fmap_compose (λ c : Cell, Qc_of_nat (counts c)) Some).
    rewrite nanmean_all_present, length_fmap.
    case_decide; [done|]. do 3 f_equal.
    apply list_fmap_ext. intros _ c _. simpl. f_equal. apply hot_days_counts.
Qed.




Lemma length_filter_mono {A : Type} (P Q : A → Prop)
    `{∀ x, Decision (P x)} `{∀ x, Decision (Q x)} (l : list A) :
  (∀ x, P x → Q x) → length (filter P l) ≤ length (filter Q l).
Proof.
  intros HPQ. induction l as [|x l IH]; [done|].
  rewrite !filter_cons.
  destruct (decide (P x)) as [HP | HP].
  - rewrite decide_True by auto. simpl. lia.
  - destruct (decide (Q x)); simpl; lia.
Qed.

Lemma Qc_sum_mono {A : Type} (f h : A → Qc) (l : list A) :
  (∀ x, f x ≤ h x)%Qc → (Qc_sum (f <$> l) ≤ Qc_sum (h <$> l))%Qc.
Proof.
  intros Hfh. induction l as [|x l IH]; [apply Qcle_refl|].
  rewrite !fmap_cons, !Qc_sum_cons. by apply Qcplus_le_compat.
Qed.

Lemma Qc_div_le_mono (x y n : Qc) :
  (0 < n)%Qc → (x ≤ y)%Qc → (x / n ≤ y / n)%Qc.
Proof.
  intros Hn Hxy. apply (Qcmult_lt_0_le_reg_r _ _ n Hn).
  assert (Hn0 : n ≠ 0%Qc) by (apply not_symmetry; by apply Qclt_not_eq).
  by rewrite !(Qcmult_comm _ n), !Qcmult_div_r.
Qed.

(** Raising the Fahrenheit threshold never raises a value of the series:
    in every bin, the average for the higher threshold is at most the
    average for the lower one. *)
Theorem compute_us48_series_antitone g (ds : Dataset) (f1 f2 : Qc) by_ a
    series1 series2 b v1 v2 :
  (f1 ≤ f2)%Qc →
  compute_us48_series g ds (fahrenheit_to_celsius f1) by_ a = inr series1 →
  compute_us48_series g ds (fahrenheit_to_celsius f2) by_ a = inr series2 →
  (b, Some v1) ∈ series1 → (b, Some v2) ∈ series2 →
  (v2 ≤ v1)%Qc.
Proof.
  intros Hf H1 H2 Hv1 Hv2.
  destruct (ds !! "temperature") as [temperature|] eqn:Ht.
  2:{ unfold compute_us48_series in H1. by rewrite Ht in H1. }
  destruct (compute_us48_series_entry g ds temperature
              (fahrenheit_to_celsius f1) by_ a Ht) as (s1 & Heq1 & _ & He1).
  destruct (compute_us48_series_entry g ds temperature
              (fahrenheit_to_celsius f2) by_ a Ht) as (s2 & Heq2 & _ & He2).
  rewrite H1 in Heq1. injection Heq1 as <-.
  rewrite H2 in Heq2. injection Heq2 as <-.
  apply He1 in Hv1. apply He2 in Hv2.
  case_decide as Hn; [done|].
  injection Hv1 as ->. injection Hv2 as ->.
  apply Qc_div_le_mono; [by apply Qc_of_nat_pos|].
  apply Qc_sum_mono. intros c. apply Qc_of_nat_le.
  unfold hot_days. apply length_filter_mono.
  intros s [Hb Hge]. split; [done|].
  unfold float_ge in *. destruct (s.2 c) as [v|]; [|done].
  apply bool_decide_eq_true_2. apply bool_decide_eq_true_1 in Hge.
  apply Qcle_trans with (fahrenheit_to_celsius f2); [|done].
  by apply fahrenheit_to_celsius_mono.
Qed.

Lemma compute_us48_series_antitone_witness :
  ∃ series1 series2 b v1 v2,
    compute_us48_series grid_ex ds_ex (fahrenheit_to_celsius (Qc_of_Z 86))
      6 2024 = inr series1 ∧
    compute_us48_series grid_ex ds_ex (fahrenheit_to_celsius (Qc_of_Z 88))
      6 2024 = inr series2 ∧
    (b, Some v1) ∈ series1 ∧ (b, Some v2) ∈ series2 ∧ (v2 ≤ v1)%Qc.
Proof.
  eexists _, _, _, _, _. split; [reflexivity|]. split; [reflexivity|].
  assert (H1 : ∀ (x y : Z * float) l, x = y → x ∈ y :: l)
    by (intros x y l ->; apply list_elem_of_here).
  split; [apply H1; reflexivity|]. split; [apply H1; reflexivity|].
  eapply (compute_us48_series_antitone grid_ex ds_ex (Qc_of_Z 86)
            (Qc_of_Z 88) 6 2024);
    [by vm_compute | reflexivity | reflexivity
    | apply H1; reflexivity | apply H1; reflexivity].
Defined.

(** * Climatology index *)

(** For every day of year from 1 to 366 the climatology index lies within
    0..364, so the lookup never leaves the 365-day climatology.  Days 1 to
    60 use index [dayofyear - 1]; every later day uses index
    [dayofyear - 2], in every year, leap or not. *)
Theorem climatology_day_number_range (d : Z) :
  (1 ≤ d ≤ 366)%Z →
  (0 ≤ climatology_day_number d ≤ 364)%Z ∧
  ((d ≤ 60)%Z → climatology_day_number d = (d - 1)%Z) ∧
  ((61 ≤ d)%Z → climatology_day_number d = (d - 2)%Z).
Proof.
  intros Hd. unfold climatology_day_number. case_decide; lia.
Qed.

Lemma climatology_day_number_range_witness :
  (0 ≤ climatology_day_number 365 ≤ 364)%Z.
Proof.
  apply (climatology_day_number_range 365). lia.
Defined.
